(** * SecureDiskWipe: a shallow embedding of [secure-wipe.py]

    The development models the deletion and metadata-flooding engine of
    [secure-wipe.py]: the random name generator, the rename obfuscator, the
    per-file sanitizer, the directory teardown of [secure_delete_folder] and
    the two flood generators with their auto-sizing rules.

    Python functions become computations in a state-and-exception monad over
    a [world]: a directory tree, a schedule of faults injected by external
    actors (locks, antivirus), an entropy source, the log of operating-system
    calls and the lines printed to the console.  Progress bars, timing and
    informational prints are left out; both branches of every
    [if TQDM_AVAILABLE] issue the same operating-system calls. *)

From Stdlib Require Import ZArith NArith QArith List String Ascii Bool Lia.
From stdpp Require Import base tactics list sorting.
Import ListNotations.
Local Open Scope string_scope.
Local Open Scope Z_scope.
Local Open Scope list_scope.

(** ** Exceptions *)

(** The Python exceptions the modelled calls can raise.  All but
    [ValueError] are [OSError] or one of its subclasses. *)
Inductive exn :=
| PermissionError
| FileNotFoundError
| FileExistsError
| NotADirectoryError
| IsADirectoryError
| OSError_ENOTEMPTY
| OSError
| ValueError.

Definition is_OSError (e : exn) : bool :=
  match e with ValueError => false | _ => true end.

Definition is_PermissionError (e : exn) : bool :=
  match e with PermissionError => true | _ => false end.

Inductive res (A : Type) :=
| Ok (a : A)
| Raise (e : exn).
Arguments Ok {A} a.
Arguments Raise {A} e.

(** ** Paths and the directory tree *)

(** A path is the list of its components; [Path.parent] drops the last one
    and [parent / name] appends one. *)
Definition path := list string.

Definition parent (p : path) : path := removelast p.
Definition child (d : path) (name : string) : path := d ++ [name].
Definition basename (p : path) : string := List.last p "".

(** A file carries its length in bytes, a directory its entries in listing
    order. *)
#[warnings="-register-all"]
Inductive node :=
| File (size : Z)
| Dir (entries : list (string * node)).

Definition is_dir_node (n : node) : bool :=
  match n with Dir _ => true | File _ => false end.

Definition is_file_node (n : node) : bool :=
  match n with File _ => true | Dir _ => false end.

Fixpoint entry (name : string) (es : list (string * node)) : option node :=
  match es with
  | [] => None
  | (n, c) :: r => if String.eqb n name then Some c else entry name r
  end.

Definition remove_entry (name : string) (es : list (string * node))
  : list (string * node) :=
  List.filter (fun e => negb (String.eqb (fst e) name)) es.

Definition put_entry (name : string) (c : node) (es : list (string * node))
  : list (string * node) :=
  remove_entry name es ++ [(name, c)].

Fixpoint get (p : path) (t : node) : option node :=
  match p with
  | [] => Some t
  | name :: rest =>
      match t with
      | Dir es =>
          match entry name es with
          | Some c => get rest c
          | None => None
          end
      | File _ => None
      end
  end.

(** [update_dir d f t] rewrites the entries of the directory at [d] with
    [f]; nothing changes when [d] is not a directory of [t]. *)
Fixpoint update_dir (d : path) (f : list (string * node) -> list (string * node))
  (t : node) : node :=
  match t with
  | File _ => t
  | Dir es =>
      match d with
      | [] => Dir (f es)
      | name :: rest =>
          Dir (List.map (fun e => if String.eqb (fst e) name
                                  then (fst e, update_dir rest f (snd e))
                                  else e) es)
      end
  end.

Definition delete_at (p : path) (t : node) : node :=
  update_dir (parent p) (remove_entry (basename p)) t.

Definition insert_at (p : path) (c : node) (t : node) : node :=
  update_dir (parent p) (put_entry (basename p) c) t.

(** ** The world *)

(** A fault is an error injected by an external actor into the next call
    that opens, writes, renames or deletes something. *)
Inductive fault :=
| Locked
| IOFailure.

Definition exn_of_fault (f : fault) : exn :=
  match f with Locked => PermissionError | IOFailure => OSError end.

(** The operating-system calls that the program issues. *)
Inductive call :=
| CExists (p : path)
| CIsFile (p : path)
| CIsDir (p : path)
| CWalk (p : path)
| CGetSize (p : path)
| COpen (p : path)
| CSeek (p : path) (offset : Z)
| CWrite (p : path) (n : Z)
| CFlush (p : path)
| CFsync (p : path)
| CClose (p : path)
| CRemove (p : path)
| CRename (src dst : path)
| CRmdir (p : path)
| CRmtree (p : path)
| CMkdir (p : path)
| CWriteBytes (p : path) (n : Z).

(** An event is a call with its outcome: the answer of a yes/no query, or
    whether the call returned without raising. *)
Definition event : Type := call * bool.

(** The lines of console output that the model keeps. *)
Inductive message :=
| MsgNotExist
| MsgNotDirectory
| MsgNothingToDelete
| MsgForceDeleted (count : nat)
| MsgSummary (success_count total_files : Z).

(** What the external capacity queries report on this host. *)
Record host := {
  platform : string;                       (* sys.platform *)
  drive : res string;                      (* Path(path).resolve().drive *)
  journal_size : option Z * option Z;      (* get_journal_size(drive) *)
  vss_storage_info : option Z * option Z * option Z
                                           (* get_vss_storage_info(drive) *)
}.

Record world := {
  fs : node;
  faults : list (option fault);
  rng : nat -> N;
  rpos : nat;
  trace : list event;
  out : list message;
  env : host
}.

Definition set_fs (t : node) (w : world) : world :=
  {| fs := t; faults := faults w; rng := rng w; rpos := rpos w;
     trace := trace w; out := out w; env := env w |}.

Definition pop_fault (w : world) : world :=
  {| fs := fs w; faults := tl (faults w); rng := rng w; rpos := rpos w;
     trace := trace w; out := out w; env := env w |}.

Definition log (e : event) (w : world) : world :=
  {| fs := fs w; faults := faults w; rng := rng w; rpos := rpos w;
     trace := trace w ++ [e]; out := out w; env := env w |}.

Definition advance (n : nat) (w : world) : world :=
  {| fs := fs w; faults := faults w; rng := rng w; rpos := rpos w + n;
     trace := trace w; out := out w; env := env w |}.

Definition emit (m : message) (w : world) : world :=
  {| fs := fs w; faults := faults w; rng := rng w; rpos := rpos w;
     trace := trace w; out := out w ++ [m]; env := env w |}.

(** ** The monad *)

Definition M (A : Type) : Type := world -> res A * world.

Definition ret {A} (a : A) : M A := fun w => (Ok a, w).

Definition raise {A} (e : exn) : M A := fun w => (Raise e, w).

Definition bind {A B} (m : M A) (k : A -> M B) : M B :=
  fun w =>
    match m w with
    | (Ok a, w') => k a w'
    | (Raise e, w') => (Raise e, w')
    end.

(** [attempt m] runs [m] and hands back its outcome instead of raising. *)
Definition attempt {A} (m : M A) : M (res A) :=
  fun w => let '(r, w') := m w in (Ok r, w').

Declare Scope py_scope.
Delimit Scope py_scope with py.
Notation "x <- m ;; k" := (bind m (fun x => k))
  (at level 100, m at next level, right associativity) : py_scope.
Notation "m ;; k" := (bind m (fun _ => k))
  (at level 100, right associativity) : py_scope.
Local Open Scope py_scope.

Definition print (m : message) : M unit := fun w => (Ok tt, emit m w).

(** ** Operating-system calls *)

(** A stat-like read is answered from the tree. *)
Definition query (c : call) (answer : node -> bool) : M bool :=
  fun w => let b := answer (fs w) in (Ok b, log (c, b) w).

(** A call that an external actor can make fail: the head of the fault
    schedule decides, otherwise the tree does. *)
Definition syscall (c : call) (sem : node -> res node) : M unit :=
  fun w =>
    match faults w with
    | Some f :: _ => (Raise (exn_of_fault f), log (c, false) (pop_fault w))
    | _ =>
        match sem (fs w) with
        | Ok t => (Ok tt, log (c, true) (set_fs t (pop_fault w)))
        | Raise e => (Raise e, log (c, false) (pop_fault w))
        end
    end.

Definition exists_ (p : path) : M bool :=
  query (CExists p) (fun t => match get p t with Some _ => true | None => false end).

Definition isfile (p : path) : M bool :=
  query (CIsFile p) (fun t => match get p t with Some (File _) => true | _ => false end).

Definition is_dir (p : path) : M bool :=
  query (CIsDir p) (fun t => match get p t with Some (Dir _) => true | _ => false end).

(** [os.path.getsize]: the length of whatever is at [p]; a directory
    reports 0 here. *)
Definition getsize (p : path) : M Z :=
  fun w =>
    match get p (fs w) with
    | Some (File n) => (Ok n, log (CGetSize p, true) w)
    | Some (Dir _) => (Ok 0, log (CGetSize p, true) w)
    | None => (Raise FileNotFoundError, log (CGetSize p, false) w)
    end.

(** [os.remove] and [Path.unlink]. *)
Definition remove (p : path) : M unit :=
  syscall (CRemove p) (fun t =>
    match get p t with
    | Some (File _) => Ok (delete_at p t)
    | Some (Dir _) => Raise PermissionError
    | None => Raise FileNotFoundError
    end).

(** [Path.rename]: the target must not exist (the Windows rule) and its
    parent must be a directory. *)
Definition rename (src dst : path) : M unit :=
  syscall (CRename src dst) (fun t =>
    match get src t with
    | None => Raise FileNotFoundError
    | Some n =>
        match get dst t with
        | Some _ => Raise FileExistsError
        | None =>
            match get (parent dst) t with
            | Some (Dir _) => Ok (insert_at dst n (delete_at src t))
            | _ => Raise FileNotFoundError
            end
        end
    end).

(** [os.rmdir]: only an empty directory goes. *)
Definition rmdir (p : path) : M unit :=
  syscall (CRmdir p) (fun t =>
    match get p t with
    | Some (Dir []) => Ok (delete_at p t)
    | Some (Dir (_ :: _)) => Raise OSError_ENOTEMPTY
    | Some (File _) => Raise NotADirectoryError
    | None => Raise FileNotFoundError
    end).

(** [shutil.rmtree(p, ignore_errors=False)]. *)
Definition rmtree (p : path) : M unit :=
  syscall (CRmtree p) (fun t =>
    match get p t with
    | Some (Dir _) => Ok (delete_at p t)
    | Some (File _) => Raise NotADirectoryError
    | None => Raise FileNotFoundError
    end).

(** [Path.mkdir(exist_ok=True)]. *)
Definition mkdir (p : path) : M unit :=
  syscall (CMkdir p) (fun t =>
    match get p t with
    | Some (Dir _) => Ok t
    | Some (File _) => Raise FileExistsError
    | None =>
        match get (parent p) t with
        | Some (Dir _) => Ok (insert_at p (Dir []) t)
        | _ => Raise FileNotFoundError
        end
    end).

(** [Path.write_bytes(os.urandom(n))]: creates or truncates the file. *)
Definition write_bytes (p : path) (n : Z) : M unit :=
  bind
    (syscall (CWriteBytes p n) (fun t =>
       match get p t with
       | Some (Dir _) => Raise PermissionError
       | _ =>
           match get (parent p) t with
           | Some (Dir _) => Ok (insert_at p (File n) t)
           | _ => Raise FileNotFoundError
           end
       end))
    (fun _ w => (Ok tt, advance (Z.to_nat n) w)).

(** [open(p, 'r+b')]: the file must be there. *)
Definition f_open (p : path) : M unit :=
  syscall (COpen p) (fun t =>
    match get p t with
    | Some (File _) => Ok t
    | Some (Dir _) => Raise PermissionError
    | None => Raise FileNotFoundError
    end).

Definition f_seek (p : path) (offset : Z) : M unit :=
  syscall (CSeek p offset) Ok.

(** [f.write(os.urandom(n))]: the bytes land inside the existing length,
    which is all the tree records of a file. *)
Definition f_write (p : path) (n : Z) : M unit :=
  bind (syscall (CWrite p n) Ok)
       (fun _ w => (Ok tt, advance (Z.to_nat n) w)).

Definition f_flush (p : path) : M unit := syscall (CFlush p) Ok.
Definition f_fsync (p : path) : M unit := syscall (CFsync p) Ok.

(** Closing never fails in the model. *)
Definition f_close (p : path) : M unit :=
  fun w => (Ok tt, log (CClose p, true) w).

(** [with open(p, 'r+b') as f: body]: the file is closed on the way out,
    whether [body] returned or raised. *)
Definition with_open {A} (p : path) (body : M A) : M A :=
  f_open p ;;
  r <- attempt body ;;
  f_close p ;;
  match r with
  | Ok a => ret a
  | Raise e => raise e
  end.

(** ** Library functions *)

Definition dir_names (es : list (string * node)) : list string :=
  List.map fst (List.filter (fun e => is_dir_node (snd e)) es).

Definition file_names (es : list (string * node)) : list string :=
  List.map fst (List.filter (fun e => is_file_node (snd e)) es).

(** [os.walk(top, topdown=False)]: the triples [(root, dirs, files)], every
    subdirectory's triples before the triple of the directory itself. *)
Fixpoint walk_node (top : path) (t : node)
  : list (path * list string * list string) :=
  match t with
  | File _ => []
  | Dir es =>
      List.flat_map (fun e => walk_node (child top (fst e)) (snd e)) es
      ++ [(top, dir_names es, file_names es)]
  end.

Definition walk (top : path) : M (list (path * list string * list string)) :=
  fun w =>
    (Ok (match get top (fs w) with
         | Some t => walk_node top t
         | None => []
         end),
     log (CWalk top, true) w).

(** [os.urandom(n)]: the next [n] bytes of the entropy source. *)
Definition urandom (n : nat) : M (list N) :=
  fun w =>
    (Ok (List.map (fun i => (rng w (rpos w + i)%nat mod 256)%N) (seq 0 n)),
     advance n w).

Definition hex_digit (d : N) : ascii :=
  match d with
  | 0 => "0" | 1 => "1" | 2 => "2" | 3 => "3" | 4 => "4" | 5 => "5"
  | 6 => "6" | 7 => "7" | 8 => "8" | 9 => "9" | 10 => "a" | 11 => "b"
  | 12 => "c" | 13 => "d" | 14 => "e" | _ => "f"
  end%N%char.

Definition hex_byte (b : N) : string :=
  String (hex_digit (b / 16)) (String (hex_digit (b mod 16)) "").

(** [binascii.hexlify]: two lowercase digits per byte. *)
Fixpoint hexlify (bs : list N) : string :=
  match bs with
  | [] => ""
  | b :: r => (hex_byte b ++ hexlify r)%string
  end.

(** [secrets.token_hex(nbytes)]; a negative count is a [ValueError]. *)
Definition token_hex (nbytes : Z) : M string :=
  if nbytes <? 0 then raise ValueError
  else bs <- urandom (Z.to_nat nbytes) ;; ret (hexlify bs).

(** ** RandomNameGenerator *)

Definition generate_random_name (length : Z) : M string :=
  token_hex (length / 2).

Definition default_name_length : Z := 48.

(** ** RenameObfuscator *)

(** The body of [for i in range(passes)] in [secure_rename]. *)
Fixpoint rename_passes (n : nat) (parent_ : path) (current_path : path)
  : M path :=
  match n with
  | O => ret current_path
  | S n' =>
      is_f <- isfile current_path ;;
      name <- generate_random_name default_name_length ;;
      let random_name := if is_f then (name ++ ".tmp")%string else name in
      let new_path := child parent_ random_name in
      rename current_path new_path ;;
      rename_passes n' parent_ new_path
  end.

(** [secure_rename(path, passes)]: [None] stands for Python's [None]. *)
Definition secure_rename (p : path) (passes : Z) : M (option path) :=
  r <- attempt (rename_passes (Z.to_nat passes) (parent p) p) ;;
  match r with
  | Ok current_path => ret (Some current_path)
  | Raise _ => ret None
  end.

(** ** FileSanitizer *)

Definition chunk_size : Z := 1024 * 1024.

(** [while remaining > 0]: every round writes at least one byte, so
    [Z.to_nat remaining] rounds of fuel are never used up. *)
Fixpoint write_chunks (fuel : nat) (f : path) (remaining : Z) : M unit :=
  match fuel with
  | O => ret tt
  | S fuel' =>
      if 0 <? remaining then
        let chunk := Z.min chunk_size remaining in
        f_write f chunk ;;
        write_chunks fuel' f (remaining - chunk)
      else ret tt
  end.

(** [for i in range(passes)] in [secure_delete_file]. *)
Fixpoint overwrite_passes (n : nat) (f : path) (file_size : Z) : M unit :=
  match n with
  | O => ret tt
  | S n' =>
      f_seek f 0 ;;
      write_chunks (Z.to_nat file_size) f file_size ;;
      overwrite_passes n' f file_size
  end.

(** The [try] block of [secure_delete_file]; [None] is the value of
    falling off the end when [filepath] is not a regular file. *)
Definition sanitize (filepath : path) (passes : Z) : M (option bool) :=
  is_f <- isfile filepath ;;
  if is_f then
    file_size <- getsize filepath ;;
    if file_size =? 0 then
      remove filepath ;;
      ret (Some true)
    else
      with_open filepath (
        (* Perform all passes *)
        overwrite_passes (Z.to_nat passes) filepath file_size ;;
        (* Single fsync at the end of all passes *)
        f_flush filepath ;;
        f_fsync filepath) ;;
      (* Finally remove *)
      remove filepath ;;
      ret (Some true)
  else ret None.

(** [secure_delete_file(filepath, passes)]: [Some true] and [Some false]
    are Python's [True] and [False]. *)
Definition secure_delete_file (filepath : path) (passes : Z)
  : M (option bool) :=
  r <- attempt (sanitize filepath passes) ;;
  match r with
  | Ok v => ret v
  | Raise e =>
      if is_PermissionError e then ret (Some false)  (* except PermissionError *)
      else ret (Some false)                          (* except Exception *)
  end.

(** ** DeletionEngine *)

(** The two lists built by the loop over [os.walk(folder, topdown=False)]. *)
Definition files_of (triples : list (path * list string * list string))
  : list path :=
  List.flat_map (fun t => List.map (child (fst (fst t))) (snd t)) triples.

Definition dirs_of (triples : list (path * list string * list string))
  : list path :=
  List.flat_map (fun t => List.map (child (fst (fst t))) (snd (fst t))) triples.

Definition inventory (folder : path) : M (list path * list path) :=
  triples <- walk folder ;;
  ret (files_of triples, dirs_of triples).

(** [sum(os.path.getsize(f) for f in all_files if os.path.exists(f))]. *)
Fixpoint sum_sizes (all_files : list path) (acc : Z) : M Z :=
  match all_files with
  | [] => ret acc
  | f :: rest =>
      ex <- exists_ f ;;
      if ex then n <- getsize f ;; sum_sizes rest (acc + n)
      else sum_sizes rest acc
  end.

Inductive item_type :=
| ItemFile
| ItemDir.

(** Step 1: the loop over [items_to_rename]. *)
Fixpoint rename_items (items : list (path * item_type))
  (renamed_files renamed_dirs : list path) : M (list path * list path) :=
  match items with
  | [] => ret (renamed_files, renamed_dirs)
  | (item_path, ty) :: rest =>
      ex <- exists_ item_path ;;
      if ex then
        new_path <- secure_rename item_path 3 ;;
        let kept :=
          match new_path with
          | Some q => q
          | None => item_path  (* If rename failed, keep original path *)
          end in
        match ty with
        | ItemFile => rename_items rest (renamed_files ++ [kept]) renamed_dirs
        | ItemDir => rename_items rest renamed_files (renamed_dirs ++ [kept])
        end
      else rename_items rest renamed_files renamed_dirs
  end.

(** Step 2: the loop over [all_files]. *)
Fixpoint delete_files (all_files : list path) (passes : Z)
  (success_count : Z) : M Z :=
  match all_files with
  | [] => ret success_count
  | filepath :: rest =>
      ex <- exists_ filepath ;;
      if ex then
        r <- secure_delete_file filepath passes ;;
        match r with
        | Some true => delete_files rest passes (success_count + 1)
        | _ => delete_files rest passes success_count
        end
      else delete_files rest passes success_count
  end.

(** The inner [try] of the loop over [all_dirs]: an empty directory goes
    with [os.rmdir], any other one with [shutil.rmtree]. *)
Definition remove_dir (dirpath : path) (failed_deletes : list path)
  : M (list path) :=
  ex <- exists_ dirpath ;;
  if ex then
    r1 <- attempt (rmdir dirpath) ;;
    match r1 with
    | Ok _ => ret failed_deletes
    | Raise e =>
        if is_OSError e then
          rmtree dirpath ;;
          ret (failed_deletes ++ [dirpath])
        else raise e
    end
  else ret failed_deletes.

(** Step 3: the loop over [all_dirs]. *)
Fixpoint remove_dirs (all_dirs : list path) (failed_deletes : list path)
  : M (list path) :=
  match all_dirs with
  | [] => ret failed_deletes
  | dirpath :: rest =>
      r <- attempt (remove_dir dirpath failed_deletes) ;;
      match r with
      | Ok failed_deletes' => remove_dirs rest failed_deletes'
      | Raise _ => remove_dirs rest failed_deletes
      end
  end.

(** "Remove the root folder". *)
Definition remove_root (folder : path) (failed_deletes : list path)
  : M (list path) :=
  r <- attempt (rmdir folder) ;;
  match r with
  | Ok _ => ret failed_deletes
  | Raise e =>
      if is_OSError e then
        r2 <- attempt (rmtree folder) ;;
        match r2 with
        | Ok _ => ret (failed_deletes ++ [folder])
        | Raise _ => ret failed_deletes
        end
      else raise e
  end.

(** Everything of [secure_delete_folder] after the early returns. *)
Definition wipe (folder : path) (all_files all_dirs : list path)
  (passes : Z) (rename_files : bool) : M (option path) :=
  let total_files := Z.of_nat (List.length all_files) in
  let total_dirs := Z.of_nat (List.length all_dirs) in
  total_size <- sum_sizes all_files 0 ;;
  lists <-
    (if rename_files && ((0 <? total_files) || (0 <? total_dirs)) then
       rename_items
         (List.map (fun f => (f, ItemFile)) all_files
          ++ List.map (fun d => (d, ItemDir)) all_dirs) [] []
     else ret (all_files, all_dirs)) ;;
  let all_files := fst lists in
  let all_dirs := snd lists in
  success_count <- delete_files all_files passes 0 ;;
  failed_deletes <- remove_dirs all_dirs [] ;;
  failed_deletes <- remove_root folder failed_deletes ;;
  (match failed_deletes with
   | [] => ret tt
   | _ :: _ => print (MsgForceDeleted (List.length failed_deletes))
   end) ;;
  print (MsgSummary success_count total_files) ;;
  ret (Some (parent folder)).

(** [secure_delete_folder(folder_path, passes, rename_files)]; the argument
    is taken as already resolved. *)
Definition secure_delete_folder (folder_path : path) (passes : Z)
  (rename_files : bool) : M (option path) :=
  let folder := folder_path in
  ex <- exists_ folder ;;
  if negb ex then print MsgNotExist ;; ret None
  else
    d <- is_dir folder ;;
    if negb d then print MsgNotDirectory ;; ret None
    else
      lists <- inventory folder ;;
      let all_files := fst lists in
      let all_dirs := snd lists in
      let total_files := Z.of_nat (List.length all_files) in
      let total_dirs := Z.of_nat (List.length all_dirs) in
      if (total_files =? 0) && (total_dirs =? 0) then
        print MsgNothingToDelete ;;
        ret (Some (parent folder))
      else wipe folder all_files all_dirs passes rename_files.

(** ** CapacityAdvisor *)

Definition get_env : M host := fun w => (Ok (env w), w).

(** [Path(path).resolve().drive], which may raise. *)
Definition resolve_drive : M string :=
  h <- get_env ;;
  match drive h with
  | Ok d => ret d
  | Raise e => raise e
  end.

Definition get_journal_size (drive_letter : string)
  : M (option Z * option Z) :=
  h <- get_env ;; ret (journal_size h).

Definition get_vss_storage_info (drive_letter : string)
  : M (option Z * option Z * option Z) :=
  h <- get_env ;; ret (vss_storage_info h).

(** Python's [int(x)] on a number with a fraction: towards zero. *)
Definition py_int (x : Q) : Z := Z.quot (Qnum x) (Zpos (Qden x)).

(** Truth value of an [int]-or-[None]. *)
Definition truthy (v : option Z) : bool :=
  match v with
  | Some n => negb (n =? 0)
  | None => false
  end.

Definition clamp_count (num_files : Z) : Z :=
  Z.max 50000 (Z.min num_files 500000).

Definition fallback_count : Z := 100000.

(** The auto-sizing block of [flood_journal].  The binary64 product and
    quotient are taken over the rationals: for every journal size below
    2^1023 in absolute value the clamped count is the same, since rounding
    is monotone and stays far below the spacing 1/4000 of the exact
    quotients anywhere under the upper clamp.  From about 2^1023 on the
    product overflows in Python, [int] raises [OverflowError] and the
    [except] clause gives the fallback; the model does not follow the code
    there, and the statements about the computed count carry the bound. *)
Definition journal_num_files (num_files : option Z) : M Z :=
  match num_files with
  | Some n => ret n
  | None =>
      h <- get_env ;;
      if String.eqb (platform h) "win32" then
        r <- attempt (
          drive_letter <- resolve_drive ;;
          if negb (String.eqb drive_letter "") then
            sizes <- get_journal_size drive_letter ;;
            let max_size := fst sizes in
            if truthy max_size then
              let max_size := match max_size with Some m => m | None => 0 end in
              let bytes_per_file := 400 * 5 in
              let num_files :=
                py_int ((inject_Z max_size * 1.5) / inject_Z bytes_per_file)%Q in
              ret (clamp_count num_files)
            else ret fallback_count
          else ret fallback_count) ;;
        match r with
        | Ok n => ret n
        | Raise _ => ret fallback_count
        end
      else ret fallback_count
  end.

Definition GiB : Z := 1024 * 1024 * 1024.

(** The auto-sizing block of [flood_vss], after the platform test; the
    result is [target_size_gb].  The product with 0.8 is taken over the
    rationals, which agrees with binary64 followed by [int] for every
    allocation below 2^50 bytes.  Above that the binary64 product can round
    to the next integer, and from 2^1024 on the conversion raises
    [OverflowError], which the [except] clause turns into 10 GB; the model
    does not follow the code there, and the statements about the computed
    target carry the bound. *)
Definition vss_target_size_gb (target_size_gb : option Q) : M Q :=
  match target_size_gb with
  | Some g => ret g
  | None =>
      r <- attempt (
        drive_letter <- resolve_drive ;;
        if negb (String.eqb drive_letter "") then
          info <- get_vss_storage_info drive_letter ;;
          let max_space := snd info in
          if truthy max_space
             && (0 <? match max_space with Some m => m | None => 0 end) then
            let max_space := match max_space with Some m => m | None => 0 end in
            let target_bytes := py_int (inject_Z max_space * 0.8)%Q in
            ret (inject_Z target_bytes / inject_Z GiB)%Q
          else
            match max_space with
            | Some (-1) | None =>
                (* Unbounded - use conservative 5GB *)
                ret 5.0%Q
            | _ =>
                (* Default fallback *)
                ret 10.0%Q
            end
        else ret 10.0%Q) ;;
      match r with
      | Ok g => ret g
      | Raise _ => ret 10.0%Q
      end
  end.

(** [flood_vss] up to [target_bytes]: [None] when the platform test
    returns before any sizing. *)
Definition vss_target_bytes (target_size_gb : option Q) : M (option Z) :=
  h <- get_env ;;
  if negb (String.eqb (platform h) "win32") then ret None
  else
    g <- vss_target_size_gb target_size_gb ;;
    ret (Some (py_int (g * inject_Z 1024 * inject_Z 1024 * inject_Z 1024)%Q)).

(** ** JournalFlood *)

(** Step 1: create the dummy files. *)
Fixpoint create_dummies (n : nat) (temp_dir : path) (created_files : list path)
  : M (list path) :=
  match n with
  | O => ret created_files
  | S n' =>
      name <- token_hex 24 ;;
      let dummy_file := child temp_dir (name ++ ".tmp")%string in
      write_bytes dummy_file 1024 ;;
      create_dummies n' temp_dir (created_files ++ [dummy_file])
  end.

(** Step 2: rename all files 3 times; the result of [secure_rename] is
    dropped. *)
Fixpoint rename_dummies (created_files : list path) : M unit :=
  match created_files with
  | [] => ret tt
  | file_path :: rest =>
      ex <- exists_ file_path ;;
      (if ex then secure_rename file_path 3 ;; ret tt else ret tt) ;;
      rename_dummies rest
  end.

(** Step 3: delete all files. *)
Fixpoint delete_dummies (created_files : list path) : M unit :=
  match created_files with
  | [] => ret tt
  | file_path :: rest =>
      attempt (
        ex <- exists_ file_path ;;
        if ex then remove file_path else ret tt) ;;
      delete_dummies rest
  end.

(** [flood_journal(path, num_files)]; the timing statistics printed at the
    end are not modelled. *)
Definition flood_journal (p : path) (num_files : option Z) : M unit :=
  num_files <- journal_num_files num_files ;;
  suffix <- token_hex 8 ;;
  let temp_dir := child p ("_journal_flood_" ++ suffix)%string in
  r <- attempt (
    mkdir temp_dir ;;
    created_files <- create_dummies (Z.to_nat num_files) temp_dir [] ;;
    rename_dummies created_files ;;
    delete_dummies created_files ;;
    attempt (rmdir temp_dir) ;;
    ret tt) ;;
  match r with
  | Ok _ => ret tt
  | Raise _ =>
      (* Clean up on error *)
      attempt (
        ex <- exists_ temp_dir ;;
        if ex then rmtree temp_dir else ret tt) ;;
      ret tt
  end.

(** ** Vocabulary of the statements *)

(** [below d e]: [e] lies strictly below the directory [d]. *)
Definition below (d e : path) : Prop := d `prefix_of` e /\ d <> e.

(** A list of directories is in post-order when nothing that comes after a
    directory lies below it. *)
Definition postorder (l : list path) : Prop :=
  StronglySorted (fun d e => ~ below d e) l.

Fixpoint names_distinct (names : list string) : bool :=
  match names with
  | [] => true
  | n :: r => negb (existsb (String.eqb n) r) && names_distinct r
  end.

(** No directory of the tree lists a name twice. *)
Fixpoint wf_node (t : node) : bool :=
  match t with
  | File _ => true
  | Dir es =>
      names_distinct (List.map fst es)
      && forallb (fun e => wf_node (snd e)) es
  end.

(** No external actor interferes any more. *)
Definition quiet (w : world) : Prop := Forall (fun f => f = None) (faults w).

Definition is_lower_hex (c : ascii) : bool :=
  existsb (Ascii.eqb c) (list_ascii_of_string "0123456789abcdef").

Definition is_write (e : event) : bool :=
  match fst e with CWrite _ _ | COpen _ => true | _ => false end.

(** Calls of the rename and overwrite-and-delete steps. *)
Definition is_sanitize_call (e : event) : bool :=
  match fst e with
  | CIsFile _ | CGetSize _ | COpen _ | CSeek _ _ | CWrite _ _ | CFlush _
  | CFsync _ | CClose _ | CRemove _ | CRename _ _ => true
  | _ => false
  end.

(** Calls that take a directory away. *)
Definition is_teardown_call (e : event) : bool :=
  match fst e with CRmdir _ | CRmtree _ => true | _ => false end.

(** The directories on which [os.rmdir] was tried, in order. *)
Fixpoint rmdir_attempts (t : list event) : list path :=
  match t with
  | [] => []
  | (CRmdir p, _) :: r => p :: rmdir_attempts r
  | _ :: r => rmdir_attempts r
  end.

(** The paths asked for with [os.path.exists], in order. *)
Fixpoint exists_queries (t : list event) : list path :=
  match t with
  | [] => []
  | (CExists p, _) :: r => p :: exists_queries r
  | _ :: r => exists_queries r
  end.

(** Number of renames that went through. *)
Fixpoint renames_ok (t : list event) : nat :=
  match t with
  | [] => O
  | (CRename _ _, true) :: r => S (renames_ok r)
  | _ :: r => renames_ok r
  end.

(** The sizes written by one pass over a file of [remaining] bytes. *)
Fixpoint chunk_list (fuel : nat) (remaining : Z) : list Z :=
  match fuel with
  | O => []
  | S fuel' =>
      if 0 <? remaining then
        Z.min chunk_size remaining
        :: chunk_list fuel' (remaining - Z.min chunk_size remaining)
      else []
  end.

Definition pass_events (p : path) (cs : list Z) : list event :=
  (CSeek p 0, true) :: List.map (fun n => (CWrite p n, true)) cs.

Definition sum_Z (l : list Z) : Z := fold_right Z.add 0 l.

(** Example hosts and worlds. *)
Definition linux_host : host :=
  {| platform := "linux"; drive := Ok "";
     journal_size := (None, None);
     vss_storage_info := (None, None, None) |}.

Definition windows_host (journal : option Z) (vss_max : option Z) : host :=
  {| platform := "win32"; drive := Ok "C:";
     journal_size := (journal, None);
     vss_storage_info := (None, None, vss_max) |}.

Definition demo_rng (i : nat) : N := N.of_nat (i * 37 + 11).

Definition demo_world (h : host) (t : node) (fl : list (option fault))
  : world :=
  {| fs := t; faults := fl; rng := demo_rng; rpos := 0;
     trace := []; out := []; env := h |}.

Definition site_tree (entries : list (string * node)) : node :=
  Dir [("site", Dir [("target", Dir entries)])].

Definition target : path := ["site"; "target"].

(** ** Vocabulary of the proofs *)

(** [steps w w' t]: from the quiet world [w] the calls [t] led to the quiet
    world [w'] and left the tree alone. *)
Definition steps (w w' : world) (t : list event) : Prop :=
  fs w' = fs w /\ trace w' = trace w ++ t /\ quiet w'.

(** [effect P m]: whatever its outcome, [m] only appends events that
    satisfy [P] to the trace and prints nothing. *)
Definition effect {A} (P : event -> bool) (m : M A) : Prop :=
  forall w r w',
    m w = (r, w') ->
    exists t, trace w' = trace w ++ t /\ forallb P t = true
              /\ out w' = out w.

(** [total m]: [m] never raises. *)
Definition total {A} (m : M A) : Prop :=
  forall w, exists a w', m w = (Ok a, w').

(** Calls that may occur before the teardown starts. *)
Definition before_teardown (e : event) : bool := negb (is_teardown_call e).

(** Calls that may occur once the teardown has started. *)
Definition after_sanitize (e : event) : bool := negb (is_sanitize_call e).

Definition is_file_item (item : path * item_type) : bool :=
  match snd item with ItemFile => true | ItemDir => false end.

(** Names the obfuscator gives to files: 48 hex digits and [.tmp]. *)
Definition generated (name : string) : Prop :=
  exists bs, List.length bs = 24%nat /\ name = (hexlify bs ++ ".tmp")%string.

(** In directory [d] the file of [size] bytes sits under the generated
    name [cur], and nothing sits under the original name [a]. *)
Definition displaced (d : path) (a : string) (size : Z) (w : world)
  (cur : string) : Prop :=
  exists es,
    get d (fs w) = Some (Dir es)
    /\ entry cur es = Some (File size)
    /\ entry a es = None
    /\ generated cur.

Definition is_remove (e : event) : bool :=
  match fst e with CRemove _ => true | _ => false end.

(** ** Vocabulary of the further properties *)

Definition is_rmtree (e : event) : bool :=
  match fst e with CRmtree _ => true | _ => false end.

(** Number of calls of one kind that went through. *)
Definition count_ok (kind : event -> bool) (t : list event) : nat :=
  List.length (List.filter (fun e => kind e && snd e) t).

(** [keeps_tree m]: whatever its outcome, [m] leaves the tree alone. *)
Definition keeps_tree {A} (m : M A) : Prop :=
  forall w r w', m w = (r, w') -> fs w' = fs w.

(** The calls of a complete overwrite of the file [p] of [size] bytes. *)
Definition full_overwrite (p : path) (size passes : Z) : list event :=
  [(CIsFile p, true); (CGetSize p, true); (COpen p, true)]
  ++ concat (repeat (pass_events p (chunk_list (Z.to_nat size) size))
               (Z.to_nat passes))
  ++ [(CFlush p, true); (CFsync p, true); (CClose p, true);
      (CRemove p, true)].

(** Calls that read, open, write or close, but unlink nothing. *)
Definition is_overwrite_call (e : event) : bool :=
  match fst e with
  | CIsFile _ | CGetSize _ | COpen _ | CSeek _ _ | CWrite _ _ | CFlush _
  | CFsync _ | CClose _ => true
  | _ => false
  end.

(** Calls that remove neither a file nor a directory tree. *)
Definition is_harmless_call (e : event) : bool :=
  match fst e with
  | CRemove _ | CRmtree _ => false
  | _ => true
  end.

(** [tally w w' removed forced]: from [w] to [w'] the trace grew by calls
    of which [removed] were successful unlinks and [forced] successful
    [rmtree]s, and nothing was printed. *)
Definition tally (w w' : world) (removed forced : nat) : Prop :=
  exists t,
    trace w' = trace w ++ t
    /\ count_ok is_remove t = removed
    /\ count_ok is_rmtree t = forced
    /\ out w' = out w.

(** * Properties *)

(** ** Names *)

Lemma hex_digit_lower (d : N) : is_lower_hex (hex_digit d) = true.
Proof.
  destruct d as [|p]; [reflexivity|].
  do 4 (try destruct p as [p|p|]; try reflexivity).
Qed.

Lemma string_length_app (s1 s2 : string) :
  String.length (s1 ++ s2)%string = (String.length s1 + String.length s2)%nat.
Proof. induction s1 as [|c s1 IH]; simpl; [reflexivity | now rewrite IH]. Qed.

Lemma hexlify_length (bs : list N) :
  String.length (hexlify bs) = (2 * List.length bs)%nat.
Proof.
  induction bs as [|b bs IH]; simpl; [reflexivity|].
  rewrite IH. lia.
Qed.

Lemma hexlify_lower (bs : list N) :
  forallb is_lower_hex (list_ascii_of_string (hexlify bs)) = true.
Proof.
  induction bs as [|b bs IH]; [reflexivity|].
  cbn [hexlify hex_byte append list_ascii_of_string forallb].
  now rewrite !hex_digit_lower, IH.
Qed.

Lemma urandom_length (n : nat) (w : world) :
  exists bs, urandom n w = (Ok bs, advance n w) /\ List.length bs = n.
Proof.
  eexists. split; [reflexivity|].
  now rewrite length_map, length_seq.
Qed.

Lemma token_hex_spec (nbytes : Z) (w : world) :
  0 <= nbytes ->
  exists bs,
    token_hex nbytes w = (Ok (hexlify bs), advance (Z.to_nat nbytes) w)
    /\ List.length bs = Z.to_nat nbytes.
Proof.
  intros Hn. unfold token_hex.
  destruct (Z.ltb_spec nbytes 0) as [?|_]; [lia|].
  destruct (urandom_length (Z.to_nat nbytes) w) as (bs & E & L).
  exists bs. split; [|exact L].
  unfold bind. now rewrite E.
Qed.

(** C5, as amended.  The argument of [generate_random_name] counts hex
    characters, not bytes: for every non-negative [length] the call draws
    [length // 2] bytes from the entropy source and returns a lowercase hex
    string of exactly [2 * (length // 2)] characters, which is [length]
    itself when [length] is even (48 characters from 24 bytes by default).
    Nothing but the position in the entropy source changes. *)
Theorem generate_random_name_contract (length : Z) (w : world) :
  0 <= length ->
  exists s,
    generate_random_name length w
      = (Ok s, advance (Z.to_nat (length / 2)) w)
    /\ Z.of_nat (String.length s) = 2 * (length / 2)
    /\ (Z.even length = true -> Z.of_nat (String.length s) = length)
    /\ forallb is_lower_hex (list_ascii_of_string s) = true.
Proof.
  intros Hlen.
  assert (Hhalf : 0 <= length / 2) by (apply Z.div_pos; lia).
  destruct (token_hex_spec (length / 2) w Hhalf) as (bs & E & L).
  exists (hexlify bs). unfold generate_random_name.
  assert (Hsize : Z.of_nat (String.length (hexlify bs)) = 2 * (length / 2)).
  { rewrite hexlify_length, L, Nat2Z.inj_mul, Z2Nat.id by exact Hhalf.
    reflexivity. }
  repeat split; [exact E | exact Hsize | | apply hexlify_lower].
  intros Heven. rewrite Hsize.
  apply Zeven_bool_iff in Heven. destruct (Zeven_ex length Heven) as [k ->].
  rewrite (Z.mul_comm 2 k), Z.div_mul by lia. lia.
Qed.

Lemma generate_random_name_contract_witness :
  exists s,
    generate_random_name default_name_length
      (demo_world linux_host (Dir []) [])
      = (Ok s, advance 24 (demo_world linux_host (Dir []) []))
    /\ String.length s = 48%nat.
Proof.
  destruct (generate_random_name_contract default_name_length
              (demo_world linux_host (Dir []) [])) as (s & E & L & _).
  - unfold default_name_length. lia.
  - exists s. split; [exact E|].
    unfold default_name_length in L.
    change (2 * (48 / 2)) with (Z.of_nat 48) in L. lia.
Defined.

(** C5 as the specification words it fails: asked for 24, the generator
    returns 24 hex characters (12 bytes), not 48. *)
Lemma generate_random_name_24_is_24_chars :
  ~ (forall (byteLength : Z) (w : world),
        0 <= byteLength ->
        exists s w',
          generate_random_name byteLength w = (Ok s, w')
          /\ Z.of_nat (String.length s) = 2 * byteLength).
Proof.
  intros H.
  destruct (H 24 (demo_world linux_host (Dir []) [])) as (s & w' & E & L);
    [lia|].
  vm_compute in E. injection E as <- _.
  vm_compute in L. discriminate L.
Qed.

(** ** Capacity advisor *)

Lemma clamp_count_range (n : Z) : 50000 <= clamp_count n <= 500000.
Proof. unfold clamp_count. lia. Qed.

Lemma clamp_count_spec_form (n : Z) :
  clamp_count n = Z.min 500000 (Z.max 50000 n).
Proof. unfold clamp_count. lia. Qed.

Lemma py_int_journal_quotient (m : Z) :
  py_int (inject_Z m * 1.5 / inject_Z (400 * 5))%Q = Z.quot (3 * m) 4000.
Proof.
  change (400 * 5) with 2000.
  unfold py_int. cbn.
  match goal with
  | |- Z.quot ?a ?b = _ =>
      replace a with (5 * (3 * m)) by lia; change b with (5 * 4000)
  end.
  apply Z.quot_mul_cancel_l; lia.
Qed.
Lemma py_int_vss_product (m : Z) :
  py_int (inject_Z m * 0.8)%Q = Z.quot (4 * m) 5.
Proof.
  unfold py_int. cbn.
  match goal with
  | |- Z.quot ?a ?b = _ =>
      replace a with (2 * (4 * m)) by lia; change b with (2 * 5)
  end.
  apply Z.quot_mul_cancel_l; lia.
Qed.
Lemma py_int_gib_roundtrip (b : Z) :
  py_int (inject_Z b / inject_Z GiB * inject_Z 1024 * inject_Z 1024
          * inject_Z 1024)%Q = b.
Proof.
  change GiB with 1073741824.
  unfold py_int. cbn.
  match goal with
  | |- Z.quot ?a ?c = _ =>
      replace a with (b * 1073741824) by lia; change c with 1073741824
  end.
  apply Z.quot_mul. lia.
Qed.
(** C10.  With no caller-supplied count the journal flood always settles on
    a count in [50000, 500000]: when the journal's maximum size is known
    (reported and non-zero, the test the code applies) and below 2^1023 in
    absolute value, the range in which the rationals stand for the code's
    binary64 numbers, it is
    [min(500000, max(50000, int(1.5 * max_size / (400 * 5))))], and in every
    other case (not Windows, no drive letter, the query failing or reporting
    nothing) it is the fixed fallback 100000. *)
Theorem journal_num_files_auto (w : world) :
  exists n,
    journal_num_files None w = (Ok n, w)
    /\ 50000 <= n <= 500000
    /\ (forall d m,
          platform (env w) = "win32" ->
          drive (env w) = Ok d -> d <> "" ->
          fst (journal_size (env w)) = Some m -> m <> 0 ->
          Z.abs m < 2 ^ 1023 ->
          n = Z.min 500000
                (Z.max 50000
                   (py_int (inject_Z m * 1.5 / inject_Z (400 * 5))%Q)))
    /\ (platform (env w) <> "win32"
        \/ (exists e, drive (env w) = Raise e)
        \/ drive (env w) = Ok ""
        \/ truthy (fst (journal_size (env w))) = false ->
        n = 100000 /\ 50000 <= 100000 <= 500000).
Proof.
  unfold journal_num_files, bind, get_env, attempt, resolve_drive,
    get_journal_size, ret, raise; cbn.
  destruct (String.eqb_spec (platform (env w)) "win32") as [Hp|Hp].
  2:{ exists fallback_count. unfold fallback_count.
      repeat split; try lia; congruence. }
  destruct (drive (env w)) as [d|e] eqn:Hd; cbn.
  2:{ exists fallback_count. unfold fallback_count.
      repeat split; try lia; congruence. }
  destruct (String.eqb_spec d "") as [Hd0|Hd0]; cbn.
  { exists fallback_count. unfold fallback_count.
    repeat split; try lia. intros d' m _ [= <-] Hne. contradiction. }
  destruct (fst (journal_size (env w))) as [m|] eqn:Hm; cbn.
  2:{ exists fallback_count. unfold fallback_count.
      repeat split; try lia; congruence. }
  destruct (Z.eqb_spec m 0) as [Hm0|Hm0]; cbn.
  { exists fallback_count. unfold fallback_count.
    repeat split; try lia. intros d' m' _ _ _ [= <-] Hne. contradiction. }
  eexists. split; [reflexivity|]. split; [apply clamp_count_range|]. split.
  - intros d' m' _ _ _ [= <-] _ _. rewrite clamp_count_spec_form.
    reflexivity.
  - intros [H|[[e H]|[H|H]]]; congruence.
Qed.

Lemma journal_num_files_auto_witness :
  journal_num_files None
    (demo_world (windows_host (Some (64 * 1024 * 1024)) None) (Dir []) [])
  = (Ok 50331,
     demo_world (windows_host (Some (64 * 1024 * 1024)) None) (Dir []) []).
Proof.
  destruct (journal_num_files_auto
              (demo_world (windows_host (Some (64 * 1024 * 1024)) None)
                 (Dir []) [])) as (n & E & _ & Hknown & _).
  rewrite E. f_equal. f_equal.
  rewrite (Hknown "C:" (64 * 1024 * 1024));
    [reflexivity | reflexivity | reflexivity | discriminate | reflexivity
    | discriminate | reflexivity].
Defined.

Ltac vss_case :=
  intros;
  repeat match goal with
    | H : _ \/ _ |- _ => destruct H
    | H : ex _ |- _ => destruct H
    end;
  try congruence;
  repeat match goal with
    | H : Some _ = Some _ |- _ => injection H as <-
    | H : Ok _ = Ok _ |- _ => injection H as <-
    end;
  try lia; try reflexivity.

Ltac vss_cases := split; [|split; [|split]]; vss_case.




(** ** The directory tree *)

Lemma entry_app (x : string) (l1 l2 : list (string * node)) :
  entry x (l1 ++ l2)
  = match entry x l1 with Some c => Some c | None => entry x l2 end.
Proof.
  induction l1 as [|[n c] l1 IH]; simpl; [reflexivity|].
  destruct (String.eqb n x); [reflexivity | exact IH].
Qed.

Lemma entry_remove_entry (x a : string) (es : list (string * node)) :
  entry x (remove_entry a es)
  = if String.eqb x a then None else entry x es.
Proof.
  unfold remove_entry.
  induction es as [|[n c] es IH]; simpl.
  - now destruct (String.eqb x a).
  - destruct (String.eqb_spec n a) as [->|Hna]; simpl.
    + rewrite IH. destruct (String.eqb_spec x a) as [->|Hxa].
      * reflexivity.
      * destruct (String.eqb_spec a x); [congruence | reflexivity].
    + destruct (String.eqb_spec n x) as [->|Hnx].
      * destruct (String.eqb_spec x a); [congruence | reflexivity].
      * exact IH.
Qed.

Lemma entry_put_entry (x b : string) (c : node) (es : list (string * node)) :
  entry x (put_entry b c es)
  = if String.eqb x b then Some c else entry x es.
Proof.
  unfold put_entry. rewrite entry_app, entry_remove_entry. simpl.
  destruct (String.eqb_spec x b) as [->|Hxb].
  - now rewrite String.eqb_refl.
  - destruct (entry x es); [reflexivity|].
    destruct (String.eqb_spec b x); [congruence | reflexivity].
Qed.

Lemma entry_map_update (x name : string) (h : node -> node)
  (es : list (string * node)) :
  entry x (List.map (fun e => if String.eqb (fst e) name
                              then (fst e, h (snd e)) else e) es)
  = if String.eqb x name then option_map h (entry x es) else entry x es.
Proof.
  induction es as [|[n c] es IH]; simpl.
  - now destruct (String.eqb x name).
  - destruct (String.eqb_spec n name) as [->|Hn]; simpl.
    + destruct (String.eqb_spec name x) as [->|Hx].
      * now rewrite String.eqb_refl.
      * exact IH.
    + destruct (String.eqb_spec n x) as [->|Hx].
      * destruct (String.eqb_spec x name); [congruence | reflexivity].
      * exact IH.
Qed.

Lemma get_app (d r : path) (t : node) :
  get (d ++ r) t
  = match get d t with Some c => get r c | None => None end.
Proof.
  revert t. induction d as [|n d IH]; intros t; simpl; [reflexivity|].
  destruct t as [|es]; [reflexivity|].
  destruct (entry n es); [apply IH | reflexivity].
Qed.

Lemma get_child (d : path) (x : string) (t : node) :
  get (child d x) t
  = match get d t with Some (Dir es) => entry x es | _ => None end.
Proof.
  unfold child. rewrite get_app. destruct (get d t) as [[|es]|]; simpl;
    try reflexivity.
  now destruct (entry x es).
Qed.

Lemma get_update_dir (d : path) f (t : node) (es : list (string * node)) :
  get d t = Some (Dir es) ->
  get d (update_dir d f t) = Some (Dir (f es)).
Proof.
  revert t. induction d as [|n d IH]; intros t H.
  - simpl in H. injection H as ->. reflexivity.
  - destruct t as [|es0]; [discriminate H|].
    simpl in H. destruct (entry n es0) as [c|] eqn:Hc; [|discriminate H].
    cbn [update_dir get]. rewrite entry_map_update, String.eqb_refl, Hc.
    simpl. now apply IH.
Qed.

Lemma path_split (p : path) : p <> [] -> p = child (parent p) (basename p).
Proof. intros H. apply app_removelast_last. exact H. Qed.

Lemma parent_child (d : path) (x : string) : parent (child d x) = d.
Proof. apply removelast_last. Qed.

Lemma basename_child (d : path) (x : string) : basename (child d x) = x.
Proof. apply last_last. Qed.

Lemma get_parent_dir (p : path) (t n : node) :
  p <> [] -> get p t = Some n ->
  exists es, get (parent p) t = Some (Dir es)
             /\ entry (basename p) es = Some n.
Proof.
  intros Hp H. rewrite (path_split p Hp), get_child in H.
  destruct (get (parent p) t) as [[|es]|]; try discriminate H.
  now exists es.
Qed.

Lemma get_delete_at (p : path) (t n : node) :
  p <> [] -> get p t = Some n -> get p (delete_at p t) = None.
Proof.
  intros Hp H. destruct (get_parent_dir p t n Hp H) as (es & Hd & _).
  rewrite (path_split p Hp) at 1. rewrite get_child. unfold delete_at.
  rewrite (get_update_dir _ _ _ _ Hd), entry_remove_entry.
  now rewrite String.eqb_refl.
Qed.

(** ** Calls in a quiet world *)

Lemma syscall_calm (c : call) (sem : node -> res node) (w : world) :
  hd None (faults w) = None ->
  syscall c sem w
  = match sem (fs w) with
    | Ok t => (Ok tt, log (c, true) (set_fs t (pop_fault w)))
    | Raise e => (Raise e, log (c, false) (pop_fault w))
    end.
Proof.
  intros H. unfold syscall.
  destruct (faults w) as [|[f|] fl]; simpl in H; try discriminate H;
    reflexivity.
Qed.

Lemma quiet_calm (w : world) : quiet w -> hd None (faults w) = None.
Proof.
  unfold quiet. destruct (faults w) as [|f fl]; [reflexivity|].
  intros H. now inversion H.
Qed.

Lemma quiet_pop (w : world) : quiet w -> quiet (pop_fault w).
Proof.
  unfold quiet. simpl. destruct (faults w) as [|f fl]; [trivial|].
  intros H. now inversion H.
Qed.

Lemma steps_refl (w : world) : quiet w -> steps w w [].
Proof.
  intros H. split; [reflexivity|]. split; [now rewrite app_nil_r | exact H].
Qed.

Lemma steps_trans (w w1 w2 : world) (t1 t2 : list event) :
  steps w w1 t1 -> steps w1 w2 t2 -> steps w w2 (t1 ++ t2).
Proof.
  intros (F1 & T1 & _) (F2 & T2 & Q2). split; [congruence|].
  split; [|exact Q2]. now rewrite T2, T1, app_assoc.
Qed.

Lemma plain_call_quiet (c : call) (w : world) :
  quiet w ->
  exists w', syscall c Ok w = (Ok tt, w') /\ steps w w' [(c, true)].
Proof.
  intros Q. rewrite syscall_calm by now apply quiet_calm.
  eexists. split; [reflexivity|].
  split; [reflexivity|]. split; [reflexivity|]. exact (quiet_pop w Q).
Qed.

Lemma f_write_quiet (p : path) (n : Z) (w : world) :
  quiet w ->
  exists w', f_write p n w = (Ok tt, w') /\ steps w w' [(CWrite p n, true)].
Proof.
  intros Q. destruct (plain_call_quiet (CWrite p n) w Q) as (w1 & E & F & T & Q1).
  unfold f_write, bind. rewrite E.
  eexists. split; [reflexivity|]. split; [exact F|]. split; [exact T|exact Q1].
Qed.

Lemma f_open_quiet (p : path) (size : Z) (w : world) :
  quiet w -> get p (fs w) = Some (File size) ->
  exists w', f_open p w = (Ok tt, w') /\ steps w w' [(COpen p, true)].
Proof.
  intros Q H. unfold f_open. rewrite syscall_calm by now apply quiet_calm.
  rewrite H. eexists. split; [reflexivity|].
  split; [reflexivity|]. split; [reflexivity|]. exact (quiet_pop w Q).
Qed.

(** ** The write loop *)

Lemma chunk_size_pos : 0 < chunk_size.
Proof. reflexivity. Qed.

Lemma write_chunks_fuel (p : path) (fuel1 fuel2 : nat) (remaining : Z)
  (w : world) :
  (Z.to_nat remaining <= fuel1)%nat -> (Z.to_nat remaining <= fuel2)%nat ->
  write_chunks fuel1 p remaining w = write_chunks fuel2 p remaining w.
Proof.
  revert fuel2 remaining w.
  induction fuel1 as [|fuel1 IH]; intros fuel2 remaining w H1 H2.
  - destruct fuel2 as [|fuel2]; [reflexivity|]. simpl.
    destruct (Z.ltb_spec 0 remaining); [lia | reflexivity].
  - destruct fuel2 as [|fuel2]; simpl.
    + destruct (Z.ltb_spec 0 remaining); [lia | reflexivity].
    + destruct (Z.ltb_spec 0 remaining) as [Hpos|]; [|reflexivity].
      pose proof chunk_size_pos.
      unfold bind. destruct (f_write p _ w) as [[[]|e] w1]; [|reflexivity].
      apply IH; lia.
Qed.

Lemma chunk_list_fuel (fuel1 fuel2 : nat) (remaining : Z) :
  (Z.to_nat remaining <= fuel1)%nat -> (Z.to_nat remaining <= fuel2)%nat ->
  chunk_list fuel1 remaining = chunk_list fuel2 remaining.
Proof.
  revert fuel2 remaining.
  induction fuel1 as [|fuel1 IH]; intros fuel2 remaining H1 H2.
  - destruct fuel2 as [|fuel2]; [reflexivity|]. simpl.
    destruct (Z.ltb_spec 0 remaining); [lia | reflexivity].
  - destruct fuel2 as [|fuel2]; simpl.
    + destruct (Z.ltb_spec 0 remaining); [lia | reflexivity].
    + destruct (Z.ltb_spec 0 remaining) as [Hpos|]; [|reflexivity].
      pose proof chunk_size_pos. f_equal. apply IH; lia.
Qed.

Lemma chunk_list_sum (fuel : nat) (remaining : Z) :
  0 <= remaining -> (Z.to_nat remaining <= fuel)%nat ->
  sum_Z (chunk_list fuel remaining) = remaining.
Proof.
  revert remaining. induction fuel as [|fuel IH]; intros remaining H0 H1.
  - simpl. lia.
  - simpl. destruct (Z.ltb_spec 0 remaining) as [Hpos|]; [|simpl; lia].
    pose proof chunk_size_pos. simpl. rewrite IH; lia.
Qed.

Lemma chunk_list_bounded (fuel : nat) (remaining : Z) :
  Forall (fun n => 0 < n <= chunk_size) (chunk_list fuel remaining).
Proof.
  revert remaining. induction fuel as [|fuel IH]; intros remaining; simpl.
  - constructor.
  - destruct (Z.ltb_spec 0 remaining) as [Hpos|]; [|constructor].
    pose proof chunk_size_pos. constructor; [lia | apply IH].
Qed.

(** Every chunk but the last one is a full [chunk_size]. *)
Lemma chunk_list_full (fuel : nat) (remaining : Z) (i : nat) (n : Z) :
  (S i < List.length (chunk_list fuel remaining))%nat ->
  nth_error (chunk_list fuel remaining) i = Some n ->
  n = chunk_size.
Proof.
  revert remaining i. induction fuel as [|fuel IH]; intros remaining i; simpl.
  - lia.
  - destruct (Z.ltb_spec 0 remaining) as [Hpos|]; [|simpl; lia].
    destruct i as [|i]; simpl.
    + intros Hlen [= <-].
      destruct (Z.min_spec chunk_size remaining) as [[_ ->]|[Hle Hmin]];
        [reflexivity|].
      exfalso. rewrite Hmin, Z.sub_diag in Hlen.
      destruct fuel; simpl in Hlen; lia.
    + intros Hlen. apply IH. lia.
Qed.

Lemma write_chunks_quiet (p : path) (fuel : nat) (remaining : Z) (w : world) :
  quiet w ->
  exists w',
    write_chunks fuel p remaining w = (Ok tt, w')
    /\ steps w w'
         (List.map (fun n => (CWrite p n, true)) (chunk_list fuel remaining)).
Proof.
  revert remaining w. induction fuel as [|fuel IH]; intros remaining w Q.
  - exists w. split; [reflexivity | now apply steps_refl].
  - simpl. destruct (0 <? remaining).
    + destruct (f_write_quiet p (Z.min chunk_size remaining) w Q)
        as (w1 & E1 & S1).
      destruct (IH (remaining - Z.min chunk_size remaining) w1) as (w2 & E2 & S2);
        [apply S1|].
      exists w2. unfold bind. rewrite E1. split; [exact E2|].
      apply (steps_trans _ _ _ _ _ S1 S2).
    + exists w. split; [reflexivity | now apply steps_refl].
Qed.

Lemma overwrite_passes_quiet (p : path) (n : nat) (size : Z) (w : world) :
  quiet w ->
  exists w',
    overwrite_passes n p size w = (Ok tt, w')
    /\ steps w w'
         (concat (repeat (pass_events p (chunk_list (Z.to_nat size) size)) n)).
Proof.
  revert w. induction n as [|n IH]; intros w Q.
  - exists w. split; [reflexivity | now apply steps_refl].
  - simpl.
    destruct (plain_call_quiet (CSeek p 0) w Q) as (w1 & E1 & S1).
    destruct (write_chunks_quiet p (Z.to_nat size) size w1) as (w2 & E2 & S2);
      [apply S1|].
    destruct (IH w2) as (w3 & E3 & S3); [apply S2|].
    exists w3. unfold bind, f_seek. rewrite E1, E2. split; [exact E3|].
    unfold pass_events. simpl.
    apply (steps_trans w w1 w3 [(CSeek p 0, true)] _ S1).
    apply (steps_trans _ _ _ _ _ S2 S3).
Qed.

(** ** The file sanitizer *)

Lemma bind_ok {A B} (m : M A) (k : A -> M B) (w w' : world) (a : A) :
  m w = (Ok a, w') -> bind m k w = k a w'.
Proof. intros H. unfold bind. now rewrite H. Qed.

Lemma bind_raise {A B} (m : M A) (k : A -> M B) (w w' : world) (e : exn) :
  m w = (Raise e, w') -> bind m k w = (Raise e, w').
Proof. intros H. unfold bind. now rewrite H. Qed.

Lemma attempt_eq {A} (m : M A) (w w' : world) (r : res A) :
  m w = (r, w') -> attempt m w = (Ok r, w').
Proof. intros H. unfold attempt. now rewrite H. Qed.

Ltac step H := rewrite (bind_ok _ _ _ _ _ H); cbv beta iota.

Lemma isfile_file (p : path) (size : Z) (w : world) :
  get p (fs w) = Some (File size) ->
  isfile p w = (Ok true, log (CIsFile p, true) w).
Proof. intros H. unfold isfile, query. now rewrite H. Qed.

Lemma getsize_file (p : path) (size : Z) (w : world) :
  get p (fs w) = Some (File size) ->
  getsize p w = (Ok size, log (CGetSize p, true) w).
Proof. intros H. unfold getsize. now rewrite H. Qed.

(** C8.  With no interference, a file of [size > 0] bytes is opened; each
    of the [passes] passes seeks to offset 0 and writes [size] bytes in
    chunks of at most [chunk_size], all but the last one full; then comes
    exactly one flush and one fsync, the file is closed and only then
    removed. *)
Theorem nonempty_file_overwritten (p : path) (size passes : Z) (w : world) :
  p <> [] -> get p (fs w) = Some (File size) -> 0 < size -> quiet w ->
  exists cs w',
    secure_delete_file p passes w = (Ok (Some true), w')
    /\ trace w'
       = trace w
         ++ [(CIsFile p, true); (CGetSize p, true); (COpen p, true)]
         ++ concat (repeat (pass_events p cs) (Z.to_nat passes))
         ++ [(CFlush p, true); (CFsync p, true); (CClose p, true);
             (CRemove p, true)]
    /\ sum_Z cs = size
    /\ Forall (fun n => 0 < n <= chunk_size) cs
    /\ (forall i n, (S i < List.length cs)%nat ->
                    nth_error cs i = Some n -> n = chunk_size)
    /\ get p (fs w') = None.
Proof.
  intros Hp Hget Hsize Q.
  set (cs := chunk_list (Z.to_nat size) size).
  set (w0 := log (CGetSize p, true) (log (CIsFile p, true) w)).
  assert (S0 : steps w w0 [(CIsFile p, true); (CGetSize p, true)]).
  { split; [reflexivity|]. split; [|exact Q].
    subst w0. simpl. now rewrite <- app_assoc. }
  destruct (f_open_quiet p size w0) as (w1 & E1 & S1);
    [apply S0 | exact Hget |].
  destruct (overwrite_passes_quiet p (Z.to_nat passes) size w1)
    as (w2 & E2 & S2); [apply S1|].
  destruct (plain_call_quiet (CFlush p) w2) as (w3 & E3 & S3); [apply S2|].
  destruct (plain_call_quiet (CFsync p) w3) as (w4 & E4 & S4); [apply S3|].
  pose proof (steps_trans _ _ _ _ _ S0
               (steps_trans _ _ _ _ _ S1
                 (steps_trans _ _ _ _ _ S2
                   (steps_trans _ _ _ _ _ S3 S4)))) as (F & T & Q4).
  set (w5 := log (CClose p, true) w4).
  exists cs, (log (CRemove p, true) (set_fs (delete_at p (fs w5)) (pop_fault w5))).
  split.
  - assert (Hs : sanitize p passes w
                 = (Ok (Some true),
                    log (CRemove p, true)
                      (set_fs (delete_at p (fs w5)) (pop_fault w5)))).
    { unfold sanitize.
      step (isfile_file p size w Hget).
      step (getsize_file p size (log (CIsFile p, true) w) Hget).
      destruct (Z.eqb_spec size 0) as [?|_]; [lia|].
      fold w0.
      assert (Ew : with_open p (overwrite_passes (Z.to_nat passes) p size ;;
                                f_flush p ;; f_fsync p) w0 = (Ok tt, w5)).
      { unfold with_open. step E1.
        assert (Eb : attempt (overwrite_passes (Z.to_nat passes) p size ;;
                              f_flush p ;; f_fsync p) w1 = (Ok (Ok tt), w4)).
        { apply attempt_eq. step E2. step E3. exact E4. }
        step Eb. reflexivity. }
      step Ew.
      assert (Er : remove p w5
                   = (Ok tt, log (CRemove p, true)
                               (set_fs (delete_at p (fs w5)) (pop_fault w5)))).
      { unfold remove. rewrite syscall_calm by (apply quiet_calm; exact Q4).
        subst w5. simpl. rewrite F, Hget. reflexivity. }
      step Er. reflexivity. }
    unfold secure_delete_file.
    rewrite (bind_ok _ _ _ _ _ (attempt_eq _ _ _ _ Hs)). reflexivity.
  - split; [|split; [|split; [|split]]].
    + simpl. rewrite T. rewrite <- !app_assoc. reflexivity.
    + apply chunk_list_sum; lia.
    + apply chunk_list_bounded.
    + apply chunk_list_full.
    + simpl. rewrite F. now apply (get_delete_at p (fs w) (File size)).
Qed.

Lemma nonempty_file_overwritten_witness :
  exists w',
    secure_delete_file (target ++ ["big.bin"]) 3
      (demo_world linux_host (site_tree [("big.bin", File 5000000)]) [])
    = (Ok (Some true), w')
    /\ get (target ++ ["big.bin"]) (fs w') = None.
Proof.
  destruct (nonempty_file_overwritten (target ++ ["big.bin"]) 5000000 3
              (demo_world linux_host (site_tree [("big.bin", File 5000000)]) []))
    as (cs & w' & E & _ & _ & _ & _ & G).
  - discriminate.
  - reflexivity.
  - lia.
  - constructor.
  - exists w'. split; [exact E | exact G].
Defined.

(** C9.  A zero-length file is removed directly: the only calls are the
    two stat-like reads and one [os.remove], with no open and no write, and
    the outcome is a success whenever the removal itself is not blocked. *)
Theorem empty_file_removed_without_write (p : path) (passes : Z) (w : world) :
  p <> [] -> get p (fs w) = Some (File 0) ->
  exists ok w',
    secure_delete_file p passes w = (Ok (Some ok), w')
    /\ trace w'
       = trace w ++ [(CIsFile p, true); (CGetSize p, true); (CRemove p, ok)]
    /\ List.filter is_write (trace w') = List.filter is_write (trace w)
    /\ (hd None (faults w) = None -> ok = true /\ get p (fs w') = None)
    /\ (hd None (faults w) <> None -> ok = false /\ fs w' = fs w).
Proof.
  intros Hp Hget.
  set (w0 := log (CGetSize p, true) (log (CIsFile p, true) w)).
  assert (Hs : forall r w1,
             remove p w0 = (r, w1) ->
             secure_delete_file p passes w
             = (Ok (Some (match r with Ok _ => true | Raise _ => false end)),
                w1)).
  { intros r w1 Er. unfold secure_delete_file.
    assert (Ea : attempt (sanitize p passes) w
                 = (Ok (match r with
                        | Ok _ => Ok (Some true)
                        | Raise e => Raise e
                        end), w1)).
    { apply attempt_eq. unfold sanitize.
      step (isfile_file p 0 w Hget).
      step (getsize_file p 0 (log (CIsFile p, true) w) Hget).
      change (0 =? 0) with true. cbv iota. fold w0.
      destruct r as [[]|e]; [step Er; reflexivity|].
      now rewrite (bind_raise _ _ _ _ _ Er). }
    step Ea. destruct r as [[]|e]; [reflexivity|].
    now destruct (is_PermissionError e). }
  assert (Tw0 : trace w0 = trace w ++ [(CIsFile p, true); (CGetSize p, true)])
    by (simpl; now rewrite <- app_assoc).
  unfold remove, syscall in Hs. simpl in Hs. rewrite Hget in Hs.
  destruct (faults w) as [|[f|] fl] eqn:Hf; simpl.
  - exists true. eexists. split; [exact (Hs (Ok tt) _ eq_refl)|]. simpl.
    split; [now rewrite <- !app_assoc|].
    split; [rewrite !List.filter_app; simpl; now rewrite !app_nil_r|].
    split; [|congruence]. intros _. split; [reflexivity|].
    now apply (get_delete_at p (fs w) (File 0)).
  - exists false. eexists. split; [exact (Hs (Raise _) _ eq_refl)|]. simpl.
    split; [now rewrite <- !app_assoc|].
    split; [rewrite !List.filter_app; simpl; now rewrite !app_nil_r|].
    split; [discriminate|]. intros _. split; reflexivity.
  - exists true. eexists. split; [exact (Hs (Ok tt) _ eq_refl)|]. simpl.
    split; [now rewrite <- !app_assoc|].
    split; [rewrite !List.filter_app; simpl; now rewrite !app_nil_r|].
    split; [|congruence]. intros _. split; [reflexivity|].
    now apply (get_delete_at p (fs w) (File 0)).
Qed.

Lemma empty_file_removed_without_write_witness :
  exists w',
    secure_delete_file (target ++ ["empty"]) 3
      (demo_world linux_host (site_tree [("empty", File 0)]) [])
    = (Ok (Some true), w')
    /\ get (target ++ ["empty"]) (fs w') = None.
Proof.
  destruct (empty_file_removed_without_write (target ++ ["empty"]) 3
              (demo_world linux_host (site_tree [("empty", File 0)]) []))
    as (ok & w' & E & _ & _ & Hok & _).
  - discriminate.
  - reflexivity.
  - destruct (Hok eq_refl) as [-> G]. exists w'. split; [exact E | exact G].
Defined.

(** ** Effects of a computation *)

Section Effects.
Context {A B : Type} (P : event -> bool).

Lemma effect_ret (a : A) : effect P (ret a).
Proof.
  intros w r w' [= <- <-]. exists []. now rewrite app_nil_r.
Qed.

Lemma effect_raise (e : exn) : effect P (@raise A e).
Proof.
  intros w r w' [= <- <-]. exists []. now rewrite app_nil_r.
Qed.

Lemma effect_bind (m : M A) (k : A -> M B) :
  effect P m -> (forall a, effect P (k a)) -> effect P (bind m k).
Proof.
  intros Hm Hk w r w'. unfold bind.
  destruct (m w) as [[a|e] w1] eqn:E; intros H.
  - destruct (Hm _ _ _ E) as (t1 & T1 & F1 & O1).
    destruct (Hk a _ _ _ H) as (t2 & T2 & F2 & O2).
    exists (t1 ++ t2). rewrite T2, T1, app_assoc, forallb_app, F1, F2.
    repeat split. congruence.
  - injection H as <- <-. exact (Hm _ _ _ E).
Qed.

Lemma effect_attempt (m : M A) : effect P m -> effect P (attempt m).
Proof.
  intros Hm w r w'. unfold attempt.
  destruct (m w) as [r1 w1] eqn:E. intros [= <- <-]. exact (Hm _ _ _ E).
Qed.

Lemma effect_query (c : call) (f : node -> bool) :
  P (c, true) = true -> P (c, false) = true -> effect P (query c f).
Proof.
  intros Ht Hf w r w' [= <- <-]. exists [(c, f (fs w))].
  simpl. destruct (f (fs w)); rewrite ?Ht, ?Hf; repeat split.
Qed.

Lemma effect_syscall (c : call) (sem : node -> res node) :
  P (c, true) = true -> P (c, false) = true -> effect P (syscall c sem).
Proof.
  intros Ht Hf w r w'. unfold syscall.
  destruct (faults w) as [|[f|] fl];
    [destruct (sem (fs w)) | | destruct (sem (fs w))];
    intros [= <- <-];
    first [ solve [exists [(c, true)]; simpl; rewrite Ht; repeat split]
          | solve [exists [(c, false)]; simpl; rewrite Hf; repeat split] ].
Qed.

Lemma total_ret (a : A) : total (ret a).
Proof. intros w. now exists a, w. Qed.

Lemma total_bind (m : M A) (k : A -> M B) :
  total m -> (forall a, total (k a)) -> total (bind m k).
Proof.
  intros Hm Hk w. destruct (Hm w) as (a & w1 & E).
  destruct (Hk a w1) as (b & w2 & E2).
  exists b, w2. unfold bind. now rewrite E.
Qed.

Lemma total_attempt (m : M A) : total (attempt m).
Proof.
  intros w. unfold attempt. destruct (m w) as [r w1]. now exists r, w1.
Qed.

Lemma total_query (c : call) (f : node -> bool) : total (query c f).
Proof. intros w. now eexists _, _. Qed.
End Effects.

Lemma effect_weaken {A} (P Q : event -> bool) (m : M A) :
  (forall e, P e = true -> Q e = true) -> effect P m -> effect Q m.
Proof.
  intros HPQ Hm w r w' E. destruct (Hm _ _ _ E) as (t & T & F & O).
  exists t. repeat split; try assumption.
  rewrite forallb_forall in *. auto.
Qed.

Lemma effect_advance {A} (P : event -> bool) (a : A) (n : nat) :
  effect P (fun w => (Ok a, advance n w)).
Proof. intros w r w' [= <- <-]. exists []. simpl. now rewrite app_nil_r. Qed.

Lemma effect_getsize (P : event -> bool) (p : path) :
  P (CGetSize p, true) = true -> P (CGetSize p, false) = true ->
  effect P (getsize p).
Proof.
  intros Ht Hf w r w'. unfold getsize.
  destruct (get p (fs w)) as [[|]|]; intros [= <- <-];
    first [ solve [exists [(CGetSize p, true)]; simpl; rewrite Ht;
                   repeat split]
          | solve [exists [(CGetSize p, false)]; simpl; rewrite Hf;
                   repeat split] ].
Qed.

Lemma effect_f_close (P : event -> bool) (p : path) :
  P (CClose p, true) = true -> effect P (f_close p).
Proof.
  intros Ht w r w' [= <- <-]. exists [(CClose p, true)].
  simpl. rewrite Ht. repeat split.
Qed.

Lemma effect_token_hex (P : event -> bool) (n : Z) : effect P (token_hex n).
Proof.
  unfold token_hex. destruct (n <? 0); [apply effect_raise|].
  apply effect_bind; [|intros; apply effect_ret].
  intros w r w' [= <- <-]. exists []. simpl. now rewrite app_nil_r.
Qed.

(** Discharges [effect] goals along the structure of the program. *)
Ltac effect_step :=
  match goal with
  | |- effect _ (bind _ _) => apply effect_bind; [|intros]
  | |- effect _ (ret _) => apply effect_ret
  | |- effect _ (raise _) => apply effect_raise
  | |- effect _ (attempt _) => apply effect_attempt
  | |- effect _ (query _ _) => apply effect_query; reflexivity
  | |- effect _ (syscall _ _) => apply effect_syscall; reflexivity
  | |- effect _ (getsize _) => apply effect_getsize; reflexivity
  | |- effect _ (f_close _) => apply effect_f_close; reflexivity
  | |- effect _ (token_hex _) => apply effect_token_hex
  | |- effect _ (fun w => (Ok _, advance _ w)) => apply effect_advance
  | |- effect _ (if ?b then _ else _) => destruct b
  | |- effect _ (match ?r with Ok _ => _ | Raise _ => _ end) => destruct r
  | |- effect _ (match ?r with Some _ => _ | None => _ end) => destruct r
  end.

Ltac effect_auto := repeat effect_step.

Lemma effect_secure_rename (p : path) (passes : Z) :
  effect is_sanitize_call (secure_rename p passes).
Proof.
  unfold secure_rename. apply effect_bind; [|intros; effect_auto].
  apply effect_attempt.
  generalize (parent p) as d. generalize p as cur.
  induction (Z.to_nat passes) as [|n IH]; intros cur d; simpl.
  - apply effect_ret.
  - unfold isfile, generate_random_name, rename. effect_auto. apply IH.
Qed.

Lemma total_secure_rename (p : path) (passes : Z) :
  total (secure_rename p passes).
Proof.
  unfold secure_rename. apply total_bind; [apply total_attempt|].
  intros [q|e]; apply total_ret.
Qed.

Lemma effect_write_chunks (fuel : nat) (p : path) (remaining : Z) :
  effect is_sanitize_call (write_chunks fuel p remaining).
Proof.
  revert remaining. induction fuel as [|fuel IH]; intros remaining; simpl.
  - apply effect_ret.
  - unfold f_write. effect_auto. apply IH.
Qed.

Lemma effect_overwrite_passes (n : nat) (p : path) (size : Z) :
  effect is_sanitize_call (overwrite_passes n p size).
Proof.
  induction n as [|n IH]; simpl.
  - apply effect_ret.
  - unfold f_seek. effect_auto; [apply effect_write_chunks | apply IH].
Qed.

Lemma effect_secure_delete_file (p : path) (passes : Z) :
  effect is_sanitize_call (secure_delete_file p passes).
Proof.
  unfold secure_delete_file, sanitize, with_open, isfile, remove, f_open,
    f_flush, f_fsync.
  effect_auto. apply effect_overwrite_passes.
Qed.

(** The sanitizer always answers; it never raises. *)
Lemma total_secure_delete_file (p : path) (passes : Z) :
  total (secure_delete_file p passes).
Proof.
  unfold secure_delete_file. apply total_bind; [apply total_attempt|].
  intros [v|e]; [apply total_ret|].
  destruct (is_PermissionError e); apply total_ret.
Qed.

(** ** The phases of the deletion engine *)

Lemma sanitize_before_teardown (e : event) :
  is_sanitize_call e = true -> before_teardown e = true.
Proof. destruct e as [[] b]; simpl; intros H; try discriminate; reflexivity. Qed.

Lemma exists_queries_app (t1 t2 : list event) :
  exists_queries (t1 ++ t2) = exists_queries t1 ++ exists_queries t2.
Proof.
  induction t1 as [|[c b] t1 IH]; simpl; [reflexivity|].
  destruct c; simpl; rewrite IH; reflexivity.
Qed.

Lemma rmdir_attempts_app (t1 t2 : list event) :
  rmdir_attempts (t1 ++ t2) = rmdir_attempts t1 ++ rmdir_attempts t2.
Proof.
  induction t1 as [|[c b] t1 IH]; simpl; [reflexivity|].
  destruct c; simpl; rewrite IH; reflexivity.
Qed.

Lemma exists_queries_sanitize (t : list event) :
  forallb is_sanitize_call t = true -> exists_queries t = [].
Proof.
  induction t as [|[c b] t IH]; simpl; [reflexivity|].
  intros H. apply andb_prop in H as [Hc Ht].
  destruct c; simpl in *; try discriminate; auto.
Qed.

Lemma syscall_outcome (c : call) (sem : node -> res node) (w w' : world)
  (r : res unit) :
  syscall c sem w = (r, w') ->
  trace w' = trace w ++ [(c, match r with Ok _ => true | Raise _ => false end)]
  /\ out w' = out w.
Proof.
  unfold syscall.
  destruct (faults w) as [|[f|] fl];
    [destruct (sem (fs w)) | | destruct (sem (fs w))];
    intros [= <- <-]; split; reflexivity.
Qed.

Lemma syscall_oserror (c : call) (sem : node -> res node) (w w' : world)
  (e : exn) :
  (forall t e', sem t = Raise e' -> is_OSError e' = true) ->
  syscall c sem w = (Raise e, w') -> is_OSError e = true.
Proof.
  intros Hsem. unfold syscall.
  destruct (faults w) as [|[f|] fl].
  - destruct (sem (fs w)) eqn:E; intros [= <- <-]. eauto.
  - intros [= <- <-]. now destruct f.
  - destruct (sem (fs w)) eqn:E; intros [= <- <-]. eauto.
Qed.

Lemma rmdir_oserror (p : path) (w w' : world) (e : exn) :
  rmdir p w = (Raise e, w') -> is_OSError e = true.
Proof.
  apply syscall_oserror. intros t e'.
  destruct (get p t) as [[|[|]]|]; intros [= <-]; reflexivity.
Qed.

Lemma exists_outcome (p : path) (w : world) :
  exists b, exists_ p w = (Ok b, log (CExists p, b) w)
            /\ (b = true -> exists n, get p (fs w) = Some n).
Proof.
  unfold exists_, query. destruct (get p (fs w)) as [n|].
  - exists true. split; [reflexivity|]. now exists n.
  - exists false. split; [reflexivity | discriminate].
Qed.

Lemma sum_sizes_runs (all_files : list path) (acc : Z) (w : world) :
  exists n w' t,
    sum_sizes all_files acc w = (Ok n, w')
    /\ trace w' = trace w ++ t
    /\ forallb before_teardown t = true
    /\ out w' = out w.
Proof.
  revert acc w. induction all_files as [|f rest IH]; intros acc w; simpl.
  - exists acc, w, []. now rewrite app_nil_r.
  - destruct (exists_outcome f w) as ([|] & E & Hget); step E.
    + destruct (Hget eq_refl) as [n Hn].
      assert (Eg : exists s, getsize f (log (CExists f, true) w)
                   = (Ok s, log (CGetSize f, true) (log (CExists f, true) w))).
      { unfold getsize. simpl. rewrite Hn. destruct n; eauto. }
      destruct Eg as [s Eg]. step Eg.
      destruct (IH (acc + s) (log (CGetSize f, true) (log (CExists f, true) w)))
        as (n' & w' & t & E' & T & F & O).
      exists n', w', ([(CExists f, true); (CGetSize f, true)] ++ t).
      split; [exact E'|]. split; [|split; [exact F | exact O]].
      rewrite T. simpl. now rewrite <- !app_assoc.
    + destruct (IH acc (log (CExists f, false) w))
        as (n' & w' & t & E' & T & F & O).
      exists n', w', ([(CExists f, false)] ++ t).
      split; [exact E'|]. split; [|split; [exact F | exact O]].
      rewrite T. simpl. now rewrite <- !app_assoc.
Qed.

Lemma rename_items_runs (items : list (path * item_type))
  (renamed_files renamed_dirs : list path) (w : world) :
  exists lists w' t,
    rename_items items renamed_files renamed_dirs w = (Ok lists, w')
    /\ trace w' = trace w ++ t
    /\ forallb before_teardown t = true
    /\ out w' = out w
    /\ (List.length (fst lists)
        <= List.length renamed_files
           + List.length (List.filter is_file_item items))%nat.
Proof.
  revert renamed_files renamed_dirs w.
  induction items as [|[item_path ty] rest IH];
    intros renamed_files renamed_dirs w; simpl.
  - exists (renamed_files, renamed_dirs), w, []. rewrite app_nil_r.
    repeat split. simpl. lia.
  - destruct (exists_outcome item_path w) as ([|] & E & _); step E.
    + destruct (total_secure_rename item_path 3 (log (CExists item_path, true) w))
        as (q & w1 & E1).
      destruct (effect_weaken _ _ _ sanitize_before_teardown
                  (effect_secure_rename item_path 3) _ _ _ E1)
        as (t1 & T1 & F1 & O1).
      step E1.
      destruct ty;
        [ destruct (IH (renamed_files
                          ++ [match q with Some q0 => q0 | None => item_path end])
                       renamed_dirs w1) as (l & w' & t & E' & T & F & O & L)
        | destruct (IH renamed_files
                       (renamed_dirs
                          ++ [match q with Some q0 => q0 | None => item_path end])
                       w1) as (l & w' & t & E' & T & F & O & L) ];
        exists l, w', ([(CExists item_path, true)] ++ t1 ++ t);
        (split; [exact E'|]);
        (split; [rewrite T, T1; simpl; now rewrite <- !app_assoc|]);
        (split; [simpl; now rewrite forallb_app, F1, F|]);
        (split; [rewrite O, O1; reflexivity|]);
        unfold is_file_item at 1; simpl;
        rewrite ?length_app in L; simpl in L; lia.
    + destruct (IH renamed_files renamed_dirs (log (CExists item_path, false) w))
        as (l & w' & t & E' & T & F & O & L).
      exists l, w', ([(CExists item_path, false)] ++ t).
      split; [exact E'|].
      split; [rewrite T; simpl; now rewrite <- !app_assoc|].
      split; [exact F|]. split; [exact O|].
      unfold is_file_item at 1. destruct ty; simpl; lia.
Qed.

(** The overwrite loop visits every file of its list, whatever happens to
    the files before. *)
Lemma delete_files_runs (all_files : list path) (passes : Z)
  (success_count : Z) (w : world) :
  exists n w' t,
    delete_files all_files passes success_count w = (Ok n, w')
    /\ trace w' = trace w ++ t
    /\ forallb before_teardown t = true
    /\ out w' = out w
    /\ exists_queries t = all_files
    /\ success_count <= n <= success_count + Z.of_nat (List.length all_files).
Proof.
  revert success_count w.
  induction all_files as [|f rest IH]; intros success_count w; simpl.
  - exists success_count, w, []. rewrite app_nil_r. repeat split; lia.
  - destruct (exists_outcome f w) as ([|] & E & _); step E.
    + destruct (total_secure_delete_file f passes (log (CExists f, true) w))
        as (r & w1 & E1).
      pose proof (effect_secure_delete_file f passes _ _ _ E1)
        as (t1 & T1 & F1 & O1).
      step E1.
      assert (Hcase : exists c, success_count <= c <= success_count + 1
                /\ match r with
                   | Some true => delete_files rest passes (success_count + 1)
                   | _ => delete_files rest passes success_count
                   end = delete_files rest passes c).
      { destruct r as [[|]|]; eexists; (split; [|reflexivity]); lia. }
      destruct Hcase as (c & Hc & ->).
      destruct (IH c w1) as (n & w' & t & E' & T & F & O & X & N).
      exists n, w', ([(CExists f, true)] ++ t1 ++ t).
      split; [exact E'|].
      split; [rewrite T, T1; simpl; now rewrite <- !app_assoc|].
      split.
      { simpl. rewrite forallb_app, F.
        rewrite (proj2 (forallb_forall _ _)); [reflexivity|].
        intros e He. apply sanitize_before_teardown.
        now apply (proj1 (forallb_forall _ _) F1). }
      split; [rewrite O, O1; reflexivity|].
      split; [|lia].
      simpl. rewrite exists_queries_app, (exists_queries_sanitize _ F1), X.
      reflexivity.
    + destruct (IH success_count (log (CExists f, false) w))
        as (n & w' & t & E' & T & F & O & X & N).
      exists n, w', ([(CExists f, false)] ++ t).
      split; [exact E'|].
      split; [rewrite T; simpl; now rewrite <- !app_assoc|].
      split; [exact F|]. split; [exact O|].
      split; [simpl; now rewrite X | lia].
Qed.

Lemma remove_dir_runs (dirpath : path) (failed_deletes : list path)
  (w : world) (r : res (list path)) (w' : world) :
  remove_dir dirpath failed_deletes w = (r, w') ->
  exists t,
    trace w' = trace w ++ t
    /\ forallb after_sanitize t = true
    /\ out w' = out w
    /\ sublist (rmdir_attempts t) [dirpath].
Proof.
  unfold remove_dir.
  destruct (exists_outcome dirpath w) as ([|] & E & _); step E.
  2:{ intros [= <- <-]. exists [(CExists dirpath, false)].
      repeat split. simpl. apply sublist_nil_l. }
  set (w0 := log (CExists dirpath, true) w).
  unfold attempt at 1, bind at 1.
  destruct (rmdir dirpath w0) as [[[]|e] w1] eqn:E1;
    destruct (syscall_outcome _ _ _ _ _ E1) as [T1 O1].
  { intros [= <- <-].
    exists [(CExists dirpath, true); (CRmdir dirpath, true)].
    split; [rewrite T1; simpl; now rewrite <- app_assoc|].
    repeat split; [exact O1 | simpl; reflexivity]. }
  rewrite (rmdir_oserror _ _ _ _ E1). unfold bind.
  destruct (rmtree dirpath w1) as [[[]|e2] w2] eqn:E2;
    destruct (syscall_outcome _ _ _ _ _ E2) as [T2 O2];
    intros [= <- <-];
    [ exists [(CExists dirpath, true); (CRmdir dirpath, false);
              (CRmtree dirpath, true)]
    | exists [(CExists dirpath, true); (CRmdir dirpath, false);
              (CRmtree dirpath, false)] ];
    (split; [rewrite T2, T1; simpl; now rewrite <- !app_assoc|]);
    (split; [reflexivity|]);
    (split; [rewrite O2, O1; reflexivity|]);
    simpl; reflexivity.
Qed.

Lemma remove_dirs_runs (all_dirs failed_deletes : list path) (w : world) :
  exists failed w' t,
    remove_dirs all_dirs failed_deletes w = (Ok failed, w')
    /\ trace w' = trace w ++ t
    /\ forallb after_sanitize t = true
    /\ out w' = out w
    /\ sublist (rmdir_attempts t) all_dirs.
Proof.
  revert failed_deletes w.
  induction all_dirs as [|d rest IH]; intros failed_deletes w; simpl.
  - exists failed_deletes, w, []. rewrite app_nil_r. repeat split.
    simpl. constructor.
  - destruct (remove_dir d failed_deletes w) as [r w1] eqn:E1.
    destruct (remove_dir_runs _ _ _ _ _ E1) as (t1 & T1 & F1 & O1 & S1).
    step (attempt_eq _ _ _ _ E1).
    assert (Hk : exists fd,
               match r with
               | Ok failed_deletes' => remove_dirs rest failed_deletes'
               | Raise _ => remove_dirs rest failed_deletes
               end = remove_dirs rest fd)
      by (destruct r; eauto).
    destruct Hk as [fd ->].
    destruct (IH fd w1) as (failed & w' & t & E' & T & F & O & S).
    exists failed, w', (t1 ++ t).
    split; [exact E'|].
    split; [rewrite T, T1; now rewrite <- app_assoc|].
    split; [now rewrite forallb_app, F1, F|].
    split; [rewrite O, O1; reflexivity|].
    rewrite rmdir_attempts_app.
    change (d :: rest) with ([d] ++ rest). now apply sublist_app.
Qed.

Lemma remove_root_runs (folder : path) (failed_deletes : list path)
  (w : world) :
  exists failed w' t,
    remove_root folder failed_deletes w = (Ok failed, w')
    /\ trace w' = trace w ++ t
    /\ (t = [(CRmdir folder, true)]
        \/ exists b, t = [(CRmdir folder, false); (CRmtree folder, b)])
    /\ out w' = out w.
Proof.
  unfold remove_root. unfold attempt at 1, bind at 1.
  destruct (rmdir folder w) as [[[]|e] w1] eqn:E1;
    destruct (syscall_outcome _ _ _ _ _ E1) as [T1 O1].
  { exists failed_deletes, w1, [(CRmdir folder, true)].
    repeat split; [exact T1 | now left | exact O1]. }
  rewrite (rmdir_oserror _ _ _ _ E1). unfold attempt, bind.
  destruct (rmtree folder w1) as [[[]|e2] w2] eqn:E2;
    destruct (syscall_outcome _ _ _ _ _ E2) as [T2 O2];
    eexists _, w2, [(CRmdir folder, false); (CRmtree folder, _)];
    (split; [reflexivity|]);
    (split; [rewrite T2, T1; simpl; now rewrite <- app_assoc|]);
    (split; [right; eauto | rewrite O2, O1; reflexivity]).
Qed.

Lemma after_sanitize_root (folder : path) (t : list event) :
  t = [(CRmdir folder, true)]
  \/ (exists b, t = [(CRmdir folder, false); (CRmtree folder, b)]) ->
  forallb after_sanitize t = true /\ rmdir_attempts t = [folder].
Proof. intros [->|[b ->]]; split; reflexivity. Qed.

Lemma filter_file_items (l : list path) :
  List.filter is_file_item (List.map (fun f => (f, ItemFile)) l)
  = List.map (fun f => (f, ItemFile)) l.
Proof. induction l as [|f l IH]; simpl; [reflexivity | now rewrite IH]. Qed.

Lemma filter_dir_items (l : list path) :
  List.filter is_file_item (List.map (fun d => (d, ItemDir)) l) = [].
Proof. induction l as [|d l IH]; simpl; [reflexivity | exact IH]. Qed.

(** Everything the engine does once the inventory is known: it never
    raises, it sanitizes before it tears down, and it ends with the summary
    line. *)
Lemma wipe_runs (folder : path) (all_files all_dirs : list path)
  (passes : Z) (rename_files : bool) (w : world) :
  exists w' pre files_t dirs_t root_t lists n warn,
    wipe folder all_files all_dirs passes rename_files w
    = (Ok (Some (parent folder)), w')
    /\ trace w' = trace w ++ pre ++ files_t ++ dirs_t ++ root_t
    /\ forallb before_teardown pre = true
    /\ forallb before_teardown files_t = true
    /\ exists_queries files_t = fst lists
    /\ forallb after_sanitize dirs_t = true
    /\ sublist (rmdir_attempts dirs_t) (snd lists)
    /\ (root_t = [(CRmdir folder, true)]
        \/ exists b, root_t = [(CRmdir folder, false); (CRmtree folder, b)])
    /\ (rename_files = false -> lists = (all_files, all_dirs))
    /\ out w' = out w ++ warn
                ++ [MsgSummary n (Z.of_nat (List.length all_files))]
    /\ 0 <= n <= Z.of_nat (List.length all_files).
Proof.
  unfold wipe.
  destruct (sum_sizes_runs all_files 0 w) as (sz & w1 & t1 & E1 & T1 & F1 & O1).
  step E1.
  set (cond := rename_files
               && ((0 <? Z.of_nat (List.length all_files))
                   || (0 <? Z.of_nat (List.length all_dirs)))).
  assert (H2 : exists lists w2 t2,
             (if cond
              then rename_items
                     (List.map (fun f => (f, ItemFile)) all_files
                      ++ List.map (fun d => (d, ItemDir)) all_dirs) [] []
              else ret (all_files, all_dirs)) w1 = (Ok lists, w2)
             /\ trace w2 = trace w1 ++ t2
             /\ forallb before_teardown t2 = true
             /\ out w2 = out w1
             /\ (List.length (fst lists) <= List.length all_files)%nat
             /\ (rename_files = false -> lists = (all_files, all_dirs))).
  { destruct cond eqn:Hc.
    - destruct (rename_items_runs
                  (List.map (fun f => (f, ItemFile)) all_files
                   ++ List.map (fun d => (d, ItemDir)) all_dirs) [] [] w1)
        as (l & w2 & t2 & E2 & T2 & F2 & O2 & L2).
      exists l, w2, t2. repeat split; try assumption.
      + rewrite List.filter_app, length_app in L2.
        rewrite filter_file_items, filter_dir_items, length_map in L2.
        simpl in L2. lia.
      + intros ->. discriminate Hc.
    - exists (all_files, all_dirs), w1, []. rewrite app_nil_r.
      repeat split. simpl. lia. }
  destruct H2 as (lists & w2 & t2 & E2 & T2 & F2 & O2 & L2 & R2).
  step E2.
  destruct (delete_files_runs (fst lists) passes 0 w2)
    as (n & w3 & t3 & E3 & T3 & F3 & O3 & X3 & N3).
  step E3.
  destruct (remove_dirs_runs (snd lists) [] w3)
    as (fd & w4 & t4 & E4 & T4 & F4 & O4 & S4).
  step E4.
  destruct (remove_root_runs folder fd w4) as (fd' & w5 & t5 & E5 & T5 & R5 & O5).
  step E5.
  set (warn := match fd' with
               | [] => []
               | _ :: _ => [MsgForceDeleted (List.length fd')]
               end).
  exists (emit (MsgSummary n (Z.of_nat (List.length all_files)))
            (match fd' with
             | [] => w5
             | _ :: _ => emit (MsgForceDeleted (List.length fd')) w5
             end)),
    (t1 ++ t2), t3, t4, t5, lists, n, warn.
  split; [destruct fd'; reflexivity|].
  split.
  { transitivity (trace w5); [destruct fd'; reflexivity|].
    rewrite T5, T4, T3, T2, T1. now rewrite <- !app_assoc. }
  split; [now rewrite forallb_app, F1, F2|].
  split; [exact F3|]. split; [exact X3|]. split; [exact F4|].
  split; [exact S4|]. split; [exact R5|]. split; [exact R2|].
  split; [|lia].
  subst warn. destruct fd'; simpl; rewrite O5, O4, O3, O2, O1;
    now rewrite <- ?app_assoc.
Qed.

(** ** The inventory *)

Lemma files_of_app (l1 l2 : list (path * list string * list string)) :
  files_of (l1 ++ l2) = files_of l1 ++ files_of l2.
Proof. apply flat_map_app. Qed.

Lemma dirs_of_app (l1 l2 : list (path * list string * list string)) :
  dirs_of (l1 ++ l2) = dirs_of l1 ++ dirs_of l2.
Proof. apply flat_map_app. Qed.

Lemma inventory_nonempty (top : path) (es : list (string * node)) :
  es <> [] ->
  (Z.of_nat (List.length (files_of (walk_node top (Dir es)))) =? 0)
  && (Z.of_nat (List.length (dirs_of (walk_node top (Dir es)))) =? 0)
  = false.
Proof.
  intros Hes. destruct es as [|[n c] es]; [contradiction|].
  cbn [walk_node]. rewrite files_of_app, dirs_of_app, !length_app.
  unfold files_of at 2, dirs_of at 2. cbn [flat_map fst snd].
  rewrite !app_nil_r, !length_map.
  unfold file_names, dir_names. cbn [List.filter snd].
  destruct c; cbn [is_file_node is_dir_node List.map List.length].
  - apply andb_false_intro1. apply Z.eqb_neq. lia.
  - apply andb_false_intro2. apply Z.eqb_neq. lia.
Qed.

(** The engine on an existing directory: an empty target returns at once,
    any other one goes through [wipe]. *)
Lemma secure_delete_folder_unfold (folder : path) (passes : Z)
  (rename_files : bool) (w : world) (es : list (string * node)) :
  get folder (fs w) = Some (Dir es) ->
  let w0 := log (CWalk folder, true)
              (log (CIsDir folder, true) (log (CExists folder, true) w)) in
  secure_delete_folder folder passes rename_files w
  = match es with
    | [] => (Ok (Some (parent folder)), emit MsgNothingToDelete w0)
    | _ :: _ =>
        wipe folder (files_of (walk_node folder (Dir es)))
          (dirs_of (walk_node folder (Dir es))) passes rename_files w0
    end.
Proof.
  intros Hget w0. unfold secure_delete_folder.
  assert (E1 : exists_ folder w = (Ok true, log (CExists folder, true) w))
    by (unfold exists_, query; now rewrite Hget).
  step E1. cbn [negb].
  assert (E2 : is_dir folder (log (CExists folder, true) w)
               = (Ok true, log (CIsDir folder, true)
                             (log (CExists folder, true) w)))
    by (unfold is_dir, query; simpl; now rewrite Hget).
  step E2. cbn [negb].
  assert (E3 : inventory folder
                 (log (CIsDir folder, true) (log (CExists folder, true) w))
               = (Ok (files_of (walk_node folder (Dir es)),
                      dirs_of (walk_node folder (Dir es))), w0)).
  { unfold inventory, walk, bind, ret. simpl. now rewrite Hget. }
  step E3. cbn [fst snd].
  destruct es as [|e es]; [reflexivity|].
  rewrite inventory_nonempty by discriminate. reflexivity.
Qed.

(** ** The deletion engine *)



(** C4, as amended.  On an existing directory the engine always returns
    the parent directory.  When the target holds at least one entry, the
    last thing it does to the disk is [os.rmdir] on the target itself,
    followed by [shutil.rmtree] when that fails; when the target is empty it
    returns at once and makes no attempt to remove it. *)
Theorem root_teardown (folder : path) (passes : Z) (rename_files : bool)
  (w : world) (es : list (string * node)) :
  get folder (fs w) = Some (Dir es) ->
  exists w',
    secure_delete_folder folder passes rename_files w
    = (Ok (Some (parent folder)), w')
    /\ (es <> [] ->
        exists t0,
          trace w' = t0 ++ [(CRmdir folder, true)]
          \/ exists b,
               trace w' = t0 ++ [(CRmdir folder, false); (CRmtree folder, b)])
    /\ (es = [] ->
        trace w'
        = trace w ++ [(CExists folder, true); (CIsDir folder, true);
                      (CWalk folder, true)]
        /\ fs w' = fs w
        /\ out w' = out w ++ [MsgNothingToDelete]).
Proof.
  intros Hget. rewrite (secure_delete_folder_unfold _ _ _ _ _ Hget).
  destruct es as [|e es].
  - eexists. split; [reflexivity|]. split; [contradiction|].
    intros _. simpl. rewrite <- !app_assoc. repeat split.
  - destruct (wipe_runs folder (files_of (walk_node folder (Dir (e :: es))))
                (dirs_of (walk_node folder (Dir (e :: es)))) passes rename_files
                (log (CWalk folder, true)
                   (log (CIsDir folder, true) (log (CExists folder, true) w))))
      as (w' & pre & ft & dt & rt & lists & n & warn
          & E & T & _ & _ & _ & _ & _ & R & _).
    exists w'. split; [exact E|]. split; [|discriminate].
    intros _. exists (trace w ++ [(CExists folder, true); (CIsDir folder, true);
                                  (CWalk folder, true)] ++ pre ++ ft ++ dt).
    rewrite T. cbn [trace log].
    destruct R as [->|[b ->]]; [left | right; exists b];
      repeat (rewrite <- app_assoc || rewrite <- app_comm_cons);
      reflexivity.
Qed.

Lemma root_teardown_witness :
  exists w',
    secure_delete_folder target 3 true
      (demo_world linux_host (site_tree [("a.txt", File 0)]) [])
    = (Ok (Some ["site"]), w')
    /\ get target (fs w') = None.
Proof.
  destruct (root_teardown target 3 true
              (demo_world linux_host (site_tree [("a.txt", File 0)]) [])
              [("a.txt", File 0)] eq_refl) as (w' & E & _ & _).
  exists w'. split; [exact E|].
  vm_compute in E. injection E as <-. reflexivity.
Defined.

(** C4 as the specification words it fails: on an empty target directory
    the engine returns the parent without any removal attempt on the target,
    which stays on disk. *)
Lemma empty_target_is_left_in_place :
  ~ (forall folder passes rename_files w es,
        get folder (fs w) = Some (Dir es) ->
        exists b,
          In (CRmdir folder, b)
             (trace (snd (secure_delete_folder folder passes rename_files w))))
  /\ (let r := secure_delete_folder target 3 true
                 (demo_world linux_host (site_tree []) []) in
      fst r = Ok (Some ["site"])
      /\ get target (fs (snd r)) = Some (Dir [])).
Proof.
  split; [|split; reflexivity].
  intros H.
  destruct (H target 3 true (demo_world linux_host (site_tree []) []) []
              eq_refl) as [b Hin].
  vm_compute in Hin. intuition discriminate.
Qed.

(** ** Post-order of the inventory *)

Lemma node_induction (P : node -> Prop) :
  (forall size, P (File size)) ->
  (forall es, Forall (fun e => P (snd e)) es -> P (Dir es)) ->
  forall t, P t.
Proof.
  intros HF HD.
  fix IH 1. intros [size|es]; [apply HF|].
  apply HD. induction es as [|[n c] es IHes]; constructor.
  - apply IH.
  - exact IHes.
Qed.

Lemma postorder_app (l1 l2 : list path) :
  postorder l1 -> postorder l2 ->
  (forall x y, In x l1 -> In y l2 -> ~ below x y) ->
  postorder (l1 ++ l2).
Proof.
  unfold postorder. intros H1 H2 Hx.
  induction l1 as [|a l1 IH]; simpl; [exact H2|].
  inversion H1 as [|? ? Hs Hf]; subst.
  constructor.
  - apply IH; [exact Hs|]. intros x y Hin. apply Hx. now right.
  - apply Forall_app. split; [exact Hf|].
    apply Forall_forall. intros y Hy. apply Hx; [now left|].
    now apply list_elem_of_In.
Qed.

Lemma postorder_sublist (l1 l2 : list path) :
  l1 `sublist_of` l2 -> postorder l2 -> postorder l1.
Proof.
  unfold postorder. induction 1 as [|x l1 l2 Hs IH|x l1 l2 Hs IH];
    intros H2.
  - constructor.
  - inversion H2 as [|? ? Hs2 Hf]; subst. constructor; [now apply IH|].
    apply Forall_forall. intros y Hy.
    apply (proj1 (Forall_forall _ _) Hf).
    apply (sublist_subseteq _ _ Hs). exact Hy.
  - inversion H2; subst. now apply IH.
Qed.

Lemma postorder_siblings (top : path) (names : list string) :
  postorder (List.map (child top) names).
Proof.
  unfold postorder. induction names as [|n names IH]; simpl; constructor.
  - exact IH.
  - apply Forall_forall. intros y Hy.
    apply list_elem_of_In, in_map_iff in Hy as (m & <- & _).
    intros [Hpre Hne]. apply Hne.
    apply prefix_length_eq; [exact Hpre|].
    unfold child. rewrite !length_app. simpl. lia.
Qed.

Lemma below_child (top : path) (n : string) : below top (child top n).
Proof.
  split; [now exists [n]|].
  intros H. apply (f_equal (@List.length string)) in H.
  unfold child in H. rewrite length_app in H. simpl in H. lia.
Qed.

Lemma below_trans (a b c : path) : below a b -> below b c -> below a c.
Proof.
  intros [Hab Hne] [Hbc Hne']. split; [now transitivity b|].
  intros ->. apply Hne. apply prefix_length_eq; [exact Hab|].
  now apply prefix_length.
Qed.

Lemma below_length (a b : path) :
  below a b -> (List.length a < List.length b)%nat.
Proof.
  intros [Hpre Hne]. pose proof (prefix_length _ _ Hpre).
  destruct (Nat.eq_dec (List.length a) (List.length b)) as [E|]; [|lia].
  exfalso. apply Hne. apply prefix_length_eq; [exact Hpre | lia].
Qed.

Lemma dirs_of_flat_map {X} (f : X -> list (path * list string * list string))
  (l : list X) :
  dirs_of (List.flat_map f l) = List.flat_map (fun x => dirs_of (f x)) l.
Proof.
  induction l as [|x l IH]; simpl; [reflexivity|].
  now rewrite dirs_of_app, IH.
Qed.

Lemma dirs_of_walk_dir (top : path) (es : list (string * node)) :
  dirs_of (walk_node top (Dir es))
  = List.flat_map
      (fun e => dirs_of (walk_node (child top (fst e)) (snd e))) es
    ++ List.map (child top) (dir_names es).
Proof.
  cbn [walk_node]. rewrite dirs_of_app, dirs_of_flat_map.
  unfold dirs_of at 2. simpl. now rewrite app_nil_r.
Qed.

Lemma names_distinct_head (n : string) (names : list string) (m : string) :
  names_distinct (n :: names) = true -> In m names -> n <> m.
Proof.
  simpl. intros H Hin ->. apply andb_prop in H as [H _].
  apply negb_true_iff in H.
  assert (existsb (String.eqb m) names = true); [|congruence].
  apply existsb_exists. exists m. split; [exact Hin | apply String.eqb_refl].
Qed.

(** The directories of a walk all lie below its top, and each comes after
    everything that lies below it. *)
Lemma walk_postorder (t : node) :
  forall top,
    wf_node t = true ->
    postorder (dirs_of (walk_node top t))
    /\ (forall d, In d (dirs_of (walk_node top t)) -> below top d).
Proof.
  induction t as [size|es IH] using node_induction; intros top Hwf.
  - split; [constructor | intros d []].
  - simpl in Hwf. apply andb_prop in Hwf as [Hnames Hkids].
    rewrite dirs_of_walk_dir.
    set (D := fun e : string * node =>
                dirs_of (walk_node (child top (fst e)) (snd e))).
    assert (Hbelow : forall e d, In e es -> In d (D e) ->
                                 below (child top (fst e)) d).
    { intros e d He Hd.
      apply (proj1 (Forall_forall _ _) IH e (proj2 (list_elem_of_In _ _) He)
               (child top (fst e))); [|exact Hd].
      exact (proj1 (forallb_forall _ _) Hkids e He). }
    assert (Hsub : postorder (List.flat_map D es)).
    { clear Hbelow.
      assert (Hb : forall e d, In e es -> In d (D e) ->
                               child top (fst e) `prefix_of` d).
      { intros e d He Hd.
        apply (proj1 (Forall_forall _ _) IH e (proj2 (list_elem_of_In _ _) He)
                 (child top (fst e))); [|exact Hd].
        exact (proj1 (forallb_forall _ _) Hkids e He). }
      induction es as [|e es IHes]; [constructor|].
      simpl. inversion IH as [|? ? IHe IHrest]; subst.
      simpl in Hkids. apply andb_prop in Hkids as [Hk Hks].
      apply postorder_app.
      - apply IHe. exact Hk.
      - apply IHes; try assumption.
        + simpl in Hnames. now apply andb_prop in Hnames as [_ ?].
        + intros e' d He'. apply Hb. now right.
      - intros x y Hx Hy [Hpre _].
        apply in_flat_map in Hy as (e' & He' & Hy).
        pose proof (Hb e x (or_introl eq_refl) Hx) as Px.
        pose proof (Hb e' y (or_intror He') Hy) as Py.
        assert (Pxy : child top (fst e) `prefix_of` y) by now transitivity x.
        destruct (prefix_weak_total _ _ _ Pxy Py) as [P|P];
          apply prefix_length_eq in P;
          try (unfold child; rewrite !length_app; simpl; lia);
          unfold child in P; apply app_inj_tail in P as [_ P];
          apply (names_distinct_head (fst e) (List.map fst es) (fst e') Hnames);
          try (now apply in_map); congruence. }
    split.
    + apply postorder_app; [exact Hsub | apply postorder_siblings |].
      intros x y Hx Hy Hxy.
      apply in_flat_map in Hx as (e & He & Hx).
      apply in_map_iff in Hy as (m & <- & _).
      pose proof (below_length _ _ (Hbelow e x He Hx)).
      pose proof (below_length _ _ Hxy).
      unfold child in *. rewrite !length_app in *. simpl in *. lia.
    + intros d Hd. apply in_app_or in Hd as [Hd|Hd].
      * apply in_flat_map in Hd as (e & He & Hd).
        apply (below_trans _ (child top (fst e))); [apply below_child|].
        now apply Hbelow.
      * apply in_map_iff in Hd as (m & <- & _). apply below_child.
Qed.



(** ** A rename chain that breaks half-way *)

Lemma renames_ok_app (t1 t2 : list event) :
  renames_ok (t1 ++ t2) = (renames_ok t1 + renames_ok t2)%nat.
Proof.
  induction t1 as [|[c b] t1 IH]; simpl; [reflexivity|].
  destruct c, b; simpl; rewrite IH; reflexivity.
Qed.

(** A rename inside one directory: either it goes through, and the
    directory trades the old name for the new one, or it raises and the
    tree is as before. *)
Lemma rename_sibling (d : path) (x y : string) (w w1 : world) (r : res unit) :
  rename (child d x) (child d y) w = (r, w1) ->
  match r with
  | Ok _ =>
      exists es c,
        get d (fs w) = Some (Dir es)
        /\ entry x es = Some c /\ entry y es = None
        /\ get d (fs w1) = Some (Dir (put_entry y c (remove_entry x es)))
        /\ trace w1 = trace w ++ [(CRename (child d x) (child d y), true)]
  | Raise _ =>
      fs w1 = fs w
      /\ trace w1 = trace w ++ [(CRename (child d x) (child d y), false)]
  end.
Proof.
  unfold rename, syscall.
  destruct (faults w) as [|[f|] fl]; try (intros [= <- <-]; now split).
  all: rewrite parent_child, !get_child.
  all: destruct (get d (fs w)) as [[|es]|] eqn:Hd;
    try (intros [= <- <-]; now split).
  all: destruct (entry x es) as [c|] eqn:Hx;
    try (intros [= <- <-]; now split).
  all: destruct (entry y es) as [c'|] eqn:Hy; intros [= <- <-];
    try (now split).
  all: exists es, c; repeat split; try assumption.
  all: cbn [fs log set_fs pop_fault]; unfold insert_at, delete_at.
  all: rewrite !parent_child, !basename_child.
  all: erewrite get_update_dir; [reflexivity|].
  all: now apply get_update_dir.
Qed.

Section BrokenChain.
Variables (d : path) (a : string) (size : Z).
Hypothesis a_not_generated : ~ generated a.

Lemma generated_name (w : world) :
  exists y,
    generate_random_name default_name_length w
    = (Ok y, advance 24 w)
    /\ generated (y ++ ".tmp")%string.
Proof.
  destruct (token_hex_spec 24 w) as (bs & E & L); [lia|].
  exists (hexlify bs). split; [exact E|]. now exists bs.
Qed.

Lemma generated_not_a (name : string) : generated name -> name <> a.
Proof. intros H ->. now apply a_not_generated. Qed.

Lemma rename_passes_displaced (k : nat) :
  forall cur w r w',
    displaced d a size w cur ->
    rename_passes k d (child d cur) w = (r, w') ->
    exists last, displaced d a size w' last.
Proof.
  induction k as [|k IH]; intros cur w r w' Hinv; simpl.
  - intros [= <- <-]. now exists cur.
  - destruct Hinv as (es & Hd & Hcur & Ha & Hgen).
    assert (Ef : isfile (child d cur) w
                 = (Ok true, log (CIsFile (child d cur), true) w)).
    { apply (isfile_file _ size). now rewrite get_child, Hd. }
    step Ef.
    destruct (generated_name (log (CIsFile (child d cur), true) w))
      as (y & Ey & Gy).
    step Ey.
    unfold bind at 1.
    destruct (rename (child d cur) (child d (y ++ ".tmp")) _)
      as [[[]|e] w1] eqn:Er;
      pose proof (rename_sibling _ _ _ _ _ _ Er) as Hr.
    + destruct Hr as (es' & c & Hd' & Hx & Hy & Hd1 & _).
      cbn [fs log advance] in Hd'. rewrite Hd in Hd'. injection Hd' as <-.
      rewrite Hcur in Hx. injection Hx as <-.
      apply IH. exists (put_entry (y ++ ".tmp") (File size)
                          (remove_entry cur es)).
      split; [exact Hd1|]. split; [|split; [|exact Gy]].
      * now rewrite entry_put_entry, String.eqb_refl.
      * rewrite entry_put_entry, entry_remove_entry.
        destruct (String.eqb_spec a (y ++ ".tmp")) as [Hay|_].
        { exfalso. now apply (generated_not_a _ Gy). }
        now destruct (String.eqb a cur).
    + intros [= <- <-]. exists cur, es. destruct Hr as [Hfs _].
      rewrite Hfs. now repeat split.
Qed.

(** The chain started on the original name: when it fails although one
    rename went through, the file sits under a generated name. *)
Lemma rename_passes_broken (k : nat) (w w' : world) (e : exn)
  (es : list (string * node)) :
  get d (fs w) = Some (Dir es) ->
  entry a es = Some (File size) ->
  rename_passes k d (child d a) w = (Raise e, w') ->
  (renames_ok (trace w) < renames_ok (trace w'))%nat ->
  exists last, displaced d a size w' last.
Proof.
  intros Hd Ha. destruct k as [|k]; simpl; [discriminate|].
  assert (Ef : isfile (child d a) w
               = (Ok true, log (CIsFile (child d a), true) w)).
  { apply (isfile_file _ size). now rewrite get_child, Hd. }
  step Ef.
  destruct (generated_name (log (CIsFile (child d a), true) w))
    as (y & Ey & Gy).
  step Ey.
  unfold bind at 1.
  destruct (rename (child d a) (child d (y ++ ".tmp")) _)
    as [[[]|e1] w1] eqn:Er;
    pose proof (rename_sibling _ _ _ _ _ _ Er) as Hr.
  - destruct Hr as (es' & c & Hd' & Hx & Hy & Hd1 & _).
    cbn [fs log advance] in Hd'. rewrite Hd in Hd'. injection Hd' as <-.
    rewrite Ha in Hx. injection Hx as <-.
    intros Hrun _.
    apply (rename_passes_displaced k (y ++ ".tmp")%string w1 (Raise e) w');
      [|exact Hrun].
    exists (put_entry (y ++ ".tmp") (File size) (remove_entry a es)).
    split; [exact Hd1|]. split; [|split; [|exact Gy]].
    + now rewrite entry_put_entry, String.eqb_refl.
    + rewrite entry_put_entry, entry_remove_entry, String.eqb_refl.
      destruct (String.eqb_spec a (y ++ ".tmp")) as [Hay|_]; [|reflexivity].
      exfalso. now apply (generated_not_a _ Gy).
  - intros [= <- <-] Hlt. exfalso. destruct Hr as [_ Ht].
    rewrite Ht in Hlt. cbn [trace log advance] in Hlt.
    rewrite !renames_ok_app in Hlt. simpl in Hlt. lia.
Qed.
End BrokenChain.



(** ** The journal flood *)

(** C1, evaluated.  A flood of two files in which every call succeeds:
    phase 3 looks for the files under the names they had before phase 2
    renamed them, finds none and issues no unlink; both files stay on disk
    under their last random names and the temporary directory, not being
    empty, survives the final [rmdir]. *)
Theorem flood_journal_leaves_its_files :
  let w := demo_world linux_host (Dir [("site", Dir [])]) [] in
  let r := flood_journal ["site"] (Some 2) w in
  fst r = Ok tt
  /\ (exists temp_dir f1 f2,
        get ["site"] (fs (snd r))
        = Some (Dir [(temp_dir, Dir [(f1, File 1024); (f2, File 1024)])])
        /\ List.last (trace (snd r)) (CExists [], true)
           = (CRmdir ["site"; temp_dir], false))
  /\ List.filter is_remove (trace (snd r)) = []
  /\ renames_ok (trace (snd r)) = 6%nat.
Proof.
  intros w r. split; [reflexivity|]. split; [|split; reflexivity].
  exists "_journal_flood_0b30557a9fc4e90e",
    "13385d82a7ccf1163b6085aacff4193e6388add2f71c4166.tmp",
    "7ba0c5ea0f34597ea3c8ed12375c81a6cbf0153a5f84a9ce.tmp".
  split; reflexivity.
Qed.

(** * Further properties *)

(** ** Outcomes of single calls *)

Lemma bind_inv {A B} (m : M A) (k : A -> M B) (w w' : world) (r : res B) :
  bind m k w = (r, w') ->
  (exists a w1, m w = (Ok a, w1) /\ k a w1 = (r, w'))
  \/ (exists e, m w = (Raise e, w') /\ r = Raise e).
Proof.
  unfold bind. destruct (m w) as [[a|e] w1].
  - intros H. left. now exists a, w1.
  - intros [= <- <-]. right. now exists e.
Qed.

Lemma syscall_ok_inv (c : call) (sem : node -> res node) (w w' : world) :
  syscall c sem w = (Ok tt, w') ->
  sem (fs w) = Ok (fs w')
  /\ trace w' = trace w ++ [(c, true)]
  /\ faults w' = tl (faults w)
  /\ out w' = out w.
Proof.
  unfold syscall.
  destruct (faults w) as [|[f|] fl] eqn:F; [| discriminate |];
    (destruct (sem (fs w)) as [t|e]; [|discriminate]);
    intros [= <-]; simpl; rewrite ?F; repeat split; reflexivity.
Qed.

Lemma syscall_raise_inv (c : call) (sem : node -> res node) (w w' : world)
  (e : exn) :
  syscall c sem w = (Raise e, w') ->
  fs w' = fs w
  /\ trace w' = trace w ++ [(c, false)]
  /\ out w' = out w.
Proof.
  unfold syscall.
  destruct (faults w) as [|[f|] fl];
    [destruct (sem (fs w)) | | destruct (sem (fs w))];
    try discriminate; intros [= _ <-]; simpl; repeat split; reflexivity.
Qed.

Section KeepsTree.
Context {A B : Type}.

Lemma keeps_tree_ret (a : A) : keeps_tree (ret a).
Proof. now intros w r w' [= <- <-]. Qed.

Lemma keeps_tree_raise (e : exn) : keeps_tree (@raise A e).
Proof. now intros w r w' [= <- <-]. Qed.

Lemma keeps_tree_bind (m : M A) (k : A -> M B) :
  keeps_tree m -> (forall a, keeps_tree (k a)) -> keeps_tree (bind m k).
Proof.
  intros Hm Hk w r w' H.
  destruct (bind_inv _ _ _ _ _ H) as [(a & w1 & E1 & E2)|(e & E1 & _)].
  - rewrite (Hk a _ _ _ E2). exact (Hm _ _ _ E1).
  - exact (Hm _ _ _ E1).
Qed.

Lemma keeps_tree_attempt (m : M A) : keeps_tree m -> keeps_tree (attempt m).
Proof.
  intros Hm w r w'. unfold attempt.
  destruct (m w) as [r1 w1] eqn:E. intros [= <- <-]. exact (Hm _ _ _ E).
Qed.
End KeepsTree.

Lemma keeps_tree_query (c : call) (f : node -> bool) :
  keeps_tree (query c f).
Proof. now intros w r w' [= <- <-]. Qed.

Lemma keeps_tree_plain (c : call) : keeps_tree (syscall c Ok).
Proof.
  intros w r w'. unfold syscall.
  destruct (faults w) as [|[f|] fl]; now intros [= <- <-].
Qed.

Lemma keeps_tree_f_write (p : path) (n : Z) : keeps_tree (f_write p n).
Proof.
  unfold f_write. apply keeps_tree_bind; [apply keeps_tree_plain|].
  now intros [] w r w' [= <- <-].
Qed.

Lemma keeps_tree_write_chunks (fuel : nat) (p : path) (remaining : Z) :
  keeps_tree (write_chunks fuel p remaining).
Proof.
  revert remaining. induction fuel as [|fuel IH]; intros remaining; simpl.
  - apply keeps_tree_ret.
  - destruct (0 <? remaining); [|apply keeps_tree_ret].
    apply keeps_tree_bind; [apply keeps_tree_f_write | intros; apply IH].
Qed.

Lemma keeps_tree_overwrite_passes (n : nat) (p : path) (size : Z) :
  keeps_tree (overwrite_passes n p size).
Proof.
  induction n as [|n IH]; simpl; [apply keeps_tree_ret|].
  apply keeps_tree_bind; [apply keeps_tree_plain|]. intros _.
  apply keeps_tree_bind; [apply keeps_tree_write_chunks | intros; apply IH].
Qed.

Lemma f_write_ok (p : path) (n : Z) (w w' : world) :
  f_write p n w = (Ok tt, w') -> trace w' = trace w ++ [(CWrite p n, true)].
Proof.
  unfold f_write. intros H.
  destruct (bind_inv _ _ _ _ _ H) as [([] & w1 & E1 & E2)|(e & _ & [=])].
  injection E2 as <-. now destruct (syscall_ok_inv _ _ _ _ E1) as (_ & T & _).
Qed.

Lemma write_chunks_ok (fuel : nat) (p : path) (remaining : Z) (w w' : world) :
  write_chunks fuel p remaining w = (Ok tt, w') ->
  trace w'
  = trace w ++ List.map (fun n => (CWrite p n, true)) (chunk_list fuel remaining).
Proof.
  revert remaining w. induction fuel as [|fuel IH]; intros remaining w; simpl.
  - intros [= <-]. now rewrite app_nil_r.
  - destruct (0 <? remaining); [|intros [= <-]; now rewrite app_nil_r].
    intros H.
    destruct (bind_inv _ _ _ _ _ H) as [([] & w1 & E1 & E2)|(e & _ & [=])].
    rewrite (IH _ _ E2), (f_write_ok _ _ _ _ E1). simpl.
    now rewrite <- app_assoc.
Qed.

Lemma overwrite_passes_ok (n : nat) (p : path) (size : Z) (w w' : world) :
  overwrite_passes n p size w = (Ok tt, w') ->
  trace w'
  = trace w
    ++ concat (repeat (pass_events p (chunk_list (Z.to_nat size) size)) n).
Proof.
  revert w. induction n as [|n IH]; intros w; simpl.
  - intros [= <-]. now rewrite app_nil_r.
  - intros H.
    destruct (bind_inv _ _ _ _ _ H) as [([] & w1 & E1 & E2)|(e & _ & [=])].
    destruct (bind_inv _ _ _ _ _ E2) as [([] & w2 & E3 & E4)|(e & _ & [=])].
    rewrite (IH _ E4), (write_chunks_ok _ _ _ _ _ E3).
    destruct (syscall_ok_inv _ _ _ _ E1) as (_ & -> & _).
    unfold pass_events. simpl. now rewrite <- !app_assoc.
Qed.

(** ** The sanitizer under interference *)

Lemma secure_delete_file_of_sanitize (p : path) (passes : Z) (w w' : world)
  (r : res (option bool)) :
  sanitize p passes w = (r, w') ->
  secure_delete_file p passes w
  = (Ok (match r with Ok v => v | Raise _ => Some false end), w').
Proof.
  intros H. unfold secure_delete_file. step (attempt_eq _ _ _ _ H).
  destruct r as [v|e]; [reflexivity|]. now destruct (is_PermissionError e).
Qed.

Lemma overwrite_body_ok (p : path) (n : nat) (size : Z) (w w' : world) :
  (overwrite_passes n p size ;; f_flush p ;; f_fsync p) w = (Ok tt, w') ->
  trace w'
  = trace w
    ++ concat (repeat (pass_events p (chunk_list (Z.to_nat size) size)) n)
    ++ [(CFlush p, true); (CFsync p, true)].
Proof.
  intros H.
  destruct (bind_inv _ _ _ _ _ H) as [([] & w1 & E1 & E2)|(e & _ & [=])].
  destruct (bind_inv _ _ _ _ _ E2) as [([] & w2 & E3 & E4)|(e & _ & [=])].
  destruct (syscall_ok_inv _ _ _ _ E4) as (_ & -> & _).
  destruct (syscall_ok_inv _ _ _ _ E3) as (_ & -> & _).
  rewrite (overwrite_passes_ok _ _ _ _ _ E1). now rewrite <- !app_assoc.
Qed.

Lemma keeps_tree_overwrite_body (p : path) (n : nat) (size : Z) :
  keeps_tree (overwrite_passes n p size ;; f_flush p ;; f_fsync p).
Proof.
  apply keeps_tree_bind; [apply keeps_tree_overwrite_passes|]. intros _.
  apply keeps_tree_bind; [apply keeps_tree_plain|]. intros _.
  apply keeps_tree_plain.
Qed.

(** X1.  Whatever interferes, the sanitizer treats a non-empty file all or
    nothing: it answers [True] only after every pass, the flush, the fsync,
    the close and the unlink went through, and then the file is gone; when
    it answers [False] the tree is exactly as it was. *)
Theorem overwrite_is_all_or_nothing (p : path) (size passes : Z) (w : world) :
  p <> [] -> get p (fs w) = Some (File size) -> 0 < size ->
  exists b w',
    secure_delete_file p passes w = (Ok (Some b), w')
    /\ (b = true ->
        trace w' = trace w ++ full_overwrite p size passes
        /\ fs w' = delete_at p (fs w)
        /\ get p (fs w') = None)
    /\ (b = false -> fs w' = fs w).
Proof.
  intros Hp Hget Hsize.
  set (w0 := log (CGetSize p, true) (log (CIsFile p, true) w)).
  set (body := (overwrite_passes (Z.to_nat passes) p size ;;
                f_flush p ;; f_fsync p)).
  assert (Hs : sanitize p passes w
               = ((with_open p body ;; remove p ;; ret (Some true)) w0)).
  { unfold sanitize.
    step (isfile_file p size w Hget).
    step (getsize_file p size (log (CIsFile p, true) w) Hget).
    destruct (Z.eqb_spec size 0) as [?|_]; [lia | reflexivity]. }
  assert (T0 : trace w0 = trace w ++ [(CIsFile p, true); (CGetSize p, true)])
    by (simpl; now rewrite <- app_assoc).
  destruct (f_open p w0) as [[[]|e] w1] eqn:E1.
  2:{ (* the open is refused *)
      exists false, w1. split; [|split; [discriminate|]].
      - apply (secure_delete_file_of_sanitize p passes w w1 (Raise e)).
        rewrite Hs. apply bind_raise. unfold with_open.
        now apply bind_raise.
      - intros _. now destruct (syscall_raise_inv _ _ _ _ _ E1) as (-> & _). }
  destruct (syscall_ok_inv _ _ _ _ E1) as (S1 & T1 & _).
  assert (F1 : fs w1 = fs w).
  { simpl in S1. rewrite Hget in S1. now injection S1 as <-. }
  destruct (body w1) as [rb w2] eqn:E2.
  pose proof (keeps_tree_overwrite_body _ _ _ _ _ _ E2) as F2.
  set (w3 := log (CClose p, true) w2).
  assert (Ew : with_open p body w0 = (rb, w3)).
  { unfold with_open. step E1. step (attempt_eq _ _ _ _ E2).
    assert (Ec : f_close p w2 = (Ok tt, w3)) by reflexivity.
    step Ec. now destruct rb as [[]|e]. }
  destruct rb as [[]|e].
  2:{ (* a write, the flush or the fsync failed *)
      exists false, w3. split; [|split; [discriminate|]].
      - apply (secure_delete_file_of_sanitize p passes w w3 (Raise e)).
        rewrite Hs. now apply bind_raise.
      - intros _. subst w3. simpl. congruence. }
  pose proof (overwrite_body_ok _ _ _ _ _ E2) as T2.
  destruct (remove p w3) as [[[]|e] w4] eqn:E4.
  - exists true, w4. split; [|split; [|discriminate]].
    + apply (secure_delete_file_of_sanitize p passes w w4 (Ok (Some true))).
      rewrite Hs. step Ew. step E4. reflexivity.
    + intros _. destruct (syscall_ok_inv _ _ _ _ E4) as (S4 & T4 & _).
      assert (F4 : fs w4 = delete_at p (fs w)).
      { simpl in S4. rewrite F2, F1, Hget in S4. now injection S4 as <-. }
      split; [|split; [exact F4|]].
      * rewrite T4. subst w3. cbn [trace log]. rewrite T2, T1, T0.
        unfold full_overwrite.
        repeat (rewrite <- app_assoc || rewrite <- app_comm_cons).
        reflexivity.
      * rewrite F4. now apply (get_delete_at p (fs w) (File size)).
  - exists false, w4. split; [|split; [discriminate|]].
    + apply (secure_delete_file_of_sanitize p passes w w4 (Raise e)).
      rewrite Hs. step Ew. now apply bind_raise.
    + intros _. destruct (syscall_raise_inv _ _ _ _ _ E4) as (-> & _).
      subst w3. simpl. congruence.
Qed.

Lemma overwrite_is_all_or_nothing_witness :
  exists w',
    secure_delete_file (target ++ ["f"]) 2
      (demo_world linux_host (site_tree [("f", File 3)])
         [None; None; None; Some IOFailure])
    = (Ok (Some false), w')
    /\ fs w' = site_tree [("f", File 3)].
Proof.
  destruct (overwrite_is_all_or_nothing (target ++ ["f"]) 3 2
              (demo_world linux_host (site_tree [("f", File 3)])
                 [None; None; None; Some IOFailure]))
    as (b & w' & E & _ & Hfalse).
  - discriminate.
  - reflexivity.
  - lia.
  - assert (Hb : b = false).
    { vm_compute in E. now injection E as -> _. }
    subst b. exists w'. split; [exact E | now apply Hfalse].
Defined.

(** X2.  A path that is no regular file, missing or a directory, makes the
    sanitizer fall off its end with [None]: one [isfile] query, nothing
    else, and the overwrite loop of the engine goes on without counting
    it. *)
Theorem not_a_regular_file_is_passed_over (p : path) (passes : Z) (w : world) :
  (forall size, get p (fs w) <> Some (File size)) ->
  secure_delete_file p passes w = (Ok None, log (CIsFile p, false) w)
  /\ (forall rest success_count,
         get p (fs w) <> None ->
         delete_files (p :: rest) passes success_count w
         = delete_files rest passes success_count
             (log (CIsFile p, false) (log (CExists p, true) w))).
Proof.
  intros Hnot.
  assert (Ei : forall w1, fs w1 = fs w ->
                          isfile p w1 = (Ok false, log (CIsFile p, false) w1)).
  { intros w1 F. unfold isfile, query. rewrite F.
    destruct (get p (fs w)) as [[size|es]|] eqn:G; try reflexivity.
    now destruct (Hnot size). }
  assert (Es : forall w1, fs w1 = fs w ->
                 secure_delete_file p passes w1
                 = (Ok None, log (CIsFile p, false) w1)).
  { intros w1 F.
    apply (secure_delete_file_of_sanitize p passes w1 _ (Ok None)).
    unfold sanitize. step (Ei w1 F). reflexivity. }
  split; [now apply Es|].
  intros rest c Hex. cbn [delete_files].
  assert (E : exists_ p w = (Ok true, log (CExists p, true) w)).
  { unfold exists_, query. destruct (get p (fs w)); [reflexivity | contradiction]. }
  step E. step (Es (log (CExists p, true) w) eq_refl). reflexivity.
Qed.

Lemma not_a_regular_file_is_passed_over_witness :
  secure_delete_file (target ++ ["sub"]) 3
    (demo_world linux_host (site_tree [("sub", Dir [])]) [])
  = (Ok None,
     log (CIsFile (target ++ ["sub"]), false)
       (demo_world linux_host (site_tree [("sub", Dir [])]) [])).
Proof.
  apply (not_a_regular_file_is_passed_over (target ++ ["sub"]) 3
           (demo_world linux_host (site_tree [("sub", Dir [])]) [])).
  intros size. discriminate.
Defined.

(** ** What the report counts *)

Lemma count_ok_app (kind : event -> bool) (t1 t2 : list event) :
  count_ok kind (t1 ++ t2) = (count_ok kind t1 + count_ok kind t2)%nat.
Proof. unfold count_ok. now rewrite List.filter_app, length_app. Qed.

Lemma count_ok_none (kind P : event -> bool) (t : list event) :
  (forall e, P e = true -> kind e = false) ->
  forallb P t = true -> count_ok kind t = 0%nat.
Proof.
  intros HP. unfold count_ok. induction t as [|e t IH]; simpl; [reflexivity|].
  intros H. apply andb_prop in H as [He Ht].
  rewrite (HP e He). simpl. now apply IH.
Qed.

Lemma tally_refl (w : world) : tally w w 0 0.
Proof. exists []. now rewrite app_nil_r. Qed.

Lemma tally_trans (w w1 w2 : world) (a1 b1 a2 b2 : nat) :
  tally w w1 a1 b1 -> tally w1 w2 a2 b2 -> tally w w2 (a1 + a2) (b1 + b2).
Proof.
  intros (t1 & T1 & A1 & B1 & O1) (t2 & T2 & A2 & B2 & O2).
  exists (t1 ++ t2). rewrite !count_ok_app, A1, A2, B1, B2.
  repeat split; [|congruence]. now rewrite T2, T1, app_assoc.
Qed.

Lemma tally_log (c : call) (b : bool) (w : world) :
  is_harmless_call (c, b) = true -> tally w (log (c, b) w) 0 0.
Proof.
  intros H. exists [(c, b)]. repeat split.
  - unfold count_ok. simpl. destruct c; simpl in *; try discriminate;
      reflexivity.
  - unfold count_ok. simpl. destruct c; simpl in *; try discriminate;
      reflexivity.
Qed.

Lemma tally_harmless {A} (m : M A) (w w' : world) (r : res A) :
  effect is_harmless_call m -> m w = (r, w') -> tally w w' 0 0.
Proof.
  intros Hm E. destruct (Hm _ _ _ E) as (t & T & F & O).
  exists t. repeat split; try assumption.
  - apply (count_ok_none _ is_harmless_call); [|exact F].
    intros [[] b] H; cbn in *; try discriminate; reflexivity.
  - apply (count_ok_none _ is_harmless_call); [|exact F].
    intros [[] b] H; cbn in *; try discriminate; reflexivity.
Qed.

Lemma overwrite_is_harmless (e : event) :
  is_overwrite_call e = true -> is_harmless_call e = true.
Proof. destruct e as [[] b]; cbn; intros H; try discriminate; reflexivity. Qed.

Lemma effect_write_chunks_overwrite (fuel : nat) (p : path) (remaining : Z) :
  effect is_overwrite_call (write_chunks fuel p remaining).
Proof.
  revert remaining. induction fuel as [|fuel IH]; intros remaining; simpl.
  - apply effect_ret.
  - unfold f_write. effect_auto. apply IH.
Qed.

Lemma effect_overwrite_passes_overwrite (n : nat) (p : path) (size : Z) :
  effect is_overwrite_call (overwrite_passes n p size).
Proof.
  induction n as [|n IH]; simpl.
  - apply effect_ret.
  - unfold f_seek. effect_auto;
      [apply effect_write_chunks_overwrite | apply IH].
Qed.

Lemma effect_with_open_overwrite (p : path) (n : nat) (size : Z) :
  effect is_overwrite_call
    (with_open p (overwrite_passes n p size ;; f_flush p ;; f_fsync p)).
Proof.
  unfold with_open, f_open, f_flush, f_fsync. effect_auto.
  apply effect_overwrite_passes_overwrite.
Qed.

(** The unlink that ends both branches of the sanitizer: it is the only
    call that removes anything, and it decides the answer. *)
Lemma final_remove_tally (p : path) (pre : M unit) (w w' : world)
  (r : res (option bool)) :
  effect is_overwrite_call pre ->
  (pre ;; remove p ;; ret (Some true)) w = (r, w') ->
  (r = Ok (Some true) /\ tally w w' 1 0)
  \/ ((exists e, r = Raise e) /\ tally w w' 0 0).
Proof.
  intros Hpre H.
  destruct (bind_inv _ _ _ _ _ H) as [([] & w1 & E1 & E2)|(e & E1 & ->)].
  - pose proof (tally_harmless pre _ _ _
                  (effect_weaken _ _ _ overwrite_is_harmless Hpre) E1) as T1.
    destruct (bind_inv _ _ _ _ _ E2) as [([] & w2 & E3 & E4)|(e & E3 & ->)].
    + injection E4 as <- <-. left. split; [reflexivity|].
      apply (tally_trans _ _ _ 0 0 1 0 T1).
      destruct (syscall_ok_inv _ _ _ _ E3) as (_ & T & _ & O).
      exists [(CRemove p, true)]. now repeat split.
    + right. split; [now exists e|].
      apply (tally_trans _ _ _ 0 0 0 0 T1).
      destruct (syscall_raise_inv _ _ _ _ _ E3) as (_ & T & O).
      exists [(CRemove p, false)]. now repeat split.
  - right. split; [now exists e|].
    exact (tally_harmless pre _ _ _
             (effect_weaken _ _ _ overwrite_is_harmless Hpre) E1).
Qed.

(** The sanitizer answers [True] exactly when its unlink went through. *)
Lemma secure_delete_file_tally (p : path) (passes : Z) (w w' : world)
  (r : option bool) :
  secure_delete_file p passes w = (Ok r, w') ->
  tally w w' (match r with Some true => 1 | _ => 0 end) 0.
Proof.
  destruct (sanitize p passes w) as [rs ws] eqn:Hs.
  rewrite (secure_delete_file_of_sanitize _ _ _ _ _ Hs). intros [= <- <-].
  unfold sanitize in Hs.
  destruct (bind_inv _ _ _ _ _ Hs) as [(is_f & w1 & E1 & E2)|(e & E1 & ->)].
  2:{ discriminate E1. }
  assert (T1 : tally w w1 0 0).
  { apply (tally_harmless (isfile p) _ _ (Ok is_f)); [|exact E1].
    unfold isfile. apply effect_query; reflexivity. }
  destruct is_f.
  2:{ injection E2 as <- <-. exact T1. }
  destruct (bind_inv _ _ _ _ _ E2) as [(size & w2 & E3 & E4)|(e & E3 & ->)].
  2:{ apply (tally_trans _ _ _ 0 0 0 0 T1).
      apply (tally_harmless (getsize p) _ _ (Raise e)); [|exact E3].
      apply effect_getsize; reflexivity. }
  assert (T2 : tally w w2 0 0).
  { apply (tally_trans _ _ _ 0 0 0 0 T1).
    apply (tally_harmless (getsize p) _ _ (Ok size)); [|exact E3].
    apply effect_getsize; reflexivity. }
  destruct (size =? 0).
  - change (remove p ;; ret (Some true))
      with (bind (remove p) (fun _ => ret (Some true))) in E4.
    assert (E5 : (ret tt ;; remove p ;; ret (Some true)) w2 = (rs, ws))
      by exact E4.
    destruct (final_remove_tally p (ret tt) _ _ _ (effect_ret _ tt) E5)
      as [[-> T]|[[e ->] T]].
    + apply (tally_trans _ _ _ 0 0 1 0 T2 T).
    + apply (tally_trans _ _ _ 0 0 0 0 T2 T).
  - destruct (final_remove_tally p _ _ _ _
                (effect_with_open_overwrite p (Z.to_nat passes) size) E4)
      as [[-> T]|[[e ->] T]].
    + apply (tally_trans _ _ _ 0 0 1 0 T2 T).
    + apply (tally_trans _ _ _ 0 0 0 0 T2 T).
Qed.

Lemma tally_eq (w w' : world) (a b a' b' : nat) :
  tally w w' a b -> a = a' -> b = b' -> tally w w' a' b'.
Proof. now intros T <- <-. Qed.

Lemma effect_secure_rename_harmless (p : path) (passes : Z) :
  effect is_harmless_call (secure_rename p passes).
Proof.
  unfold secure_rename. apply effect_bind; [|intros; effect_auto].
  apply effect_attempt.
  generalize (parent p) as d. generalize p as cur.
  induction (Z.to_nat passes) as [|n IH]; intros cur d; simpl.
  - apply effect_ret.
  - unfold isfile, generate_random_name, rename. effect_auto. apply IH.
Qed.

Lemma effect_sum_sizes (all_files : list path) (acc : Z) :
  effect is_harmless_call (sum_sizes all_files acc).
Proof.
  revert acc. induction all_files as [|f rest IH]; intros acc; simpl.
  - apply effect_ret.
  - unfold exists_. effect_auto; apply IH.
Qed.

Lemma effect_rename_items (items : list (path * item_type))
  (renamed_files renamed_dirs : list path) :
  effect is_harmless_call (rename_items items renamed_files renamed_dirs).
Proof.
  revert renamed_files renamed_dirs.
  induction items as [|[item_path ty] rest IH];
    intros renamed_files renamed_dirs; simpl.
  - apply effect_ret.
  - unfold exists_. apply effect_bind; [apply effect_query; reflexivity|].
    intros [|]; [|apply IH].
    apply effect_bind; [apply effect_secure_rename_harmless|].
    intros q. destruct ty; apply IH.
Qed.

(** The counter of the overwrite loop goes up by one for every unlink that
    went through, and by nothing else. *)
Lemma delete_files_tally (all_files : list path) (passes : Z)
  (success_count : Z) (w : world) :
  exists k w',
    delete_files all_files passes success_count w
    = (Ok (success_count + Z.of_nat k), w')
    /\ tally w w' k 0.
Proof.
  revert success_count w.
  induction all_files as [|f rest IH]; intros success_count w; simpl.
  - exists 0%nat, w. split; [|apply tally_refl].
    unfold ret. now rewrite Z.add_0_r.
  - destruct (exists_outcome f w) as ([|] & E & _); step E.
    + assert (T0 : tally w (log (CExists f, true) w) 0 0)
        by (apply tally_log; reflexivity).
      destruct (total_secure_delete_file f passes (log (CExists f, true) w))
        as (r & w1 & E1).
      pose proof (secure_delete_file_tally _ _ _ _ _ E1) as T1.
      step E1.
      destruct r as [[|]|].
      * destruct (IH (success_count + 1) w1) as (k & w' & E' & T').
        exists (S k), w'. split.
        { rewrite E'. do 2 f_equal. lia. }
        apply (tally_eq _ _ _ _ _ _
                 (tally_trans _ _ _ _ _ _ _ T0
                    (tally_trans _ _ _ _ _ _ _ T1 T')));
          reflexivity.
      * destruct (IH success_count w1) as (k & w' & E' & T').
        exists k, w'. split; [exact E'|].
        apply (tally_eq _ _ _ _ _ _
                 (tally_trans _ _ _ _ _ _ _ T0
                    (tally_trans _ _ _ _ _ _ _ T1 T')));
          reflexivity.
      * destruct (IH success_count w1) as (k & w' & E' & T').
        exists k, w'. split; [exact E'|].
        apply (tally_eq _ _ _ _ _ _
                 (tally_trans _ _ _ _ _ _ _ T0
                    (tally_trans _ _ _ _ _ _ _ T1 T')));
          reflexivity.
    + destruct (IH success_count (log (CExists f, false) w))
        as (k & w' & E' & T').
      exists k, w'. split; [exact E'|].
      apply (tally_eq _ _ _ _ _ _
               (tally_trans _ _ _ 0 0 _ _
                  (tally_log (CExists f) false w eq_refl) T'));
        reflexivity.
Qed.

(** A directory enters [failed_deletes] exactly when its [rmtree] went
    through. *)
Lemma remove_dir_tally (dirpath : path) (failed_deletes : list path)
  (w : world) (r : res (list path)) (w' : world) :
  remove_dir dirpath failed_deletes w = (r, w') ->
  exists k,
    tally w w' 0 k
    /\ match r with
       | Ok failed => List.length failed = (List.length failed_deletes + k)%nat
       | Raise _ => k = 0%nat
       end.
Proof.
  unfold remove_dir.
  destruct (exists_outcome dirpath w) as ([|] & E & _); step E.
  2:{ intros [= <- <-]. exists 0%nat.
      split; [apply tally_log; reflexivity | lia]. }
  set (w0 := log (CExists dirpath, true) w).
  unfold attempt at 1, bind at 1.
  destruct (rmdir dirpath w0) as [[[]|e] w1] eqn:E1;
    destruct (syscall_outcome _ _ _ _ _ E1) as [T1 O1].
  { intros [= <- <-]. exists 0%nat. split; [|lia].
    exists [(CExists dirpath, true); (CRmdir dirpath, true)].
    split; [rewrite T1; simpl; now rewrite <- app_assoc|].
    split; [reflexivity|]. split; [reflexivity | exact O1]. }
  rewrite (rmdir_oserror _ _ _ _ E1). unfold bind.
  destruct (rmtree dirpath w1) as [[[]|e2] w2] eqn:E2;
    destruct (syscall_outcome _ _ _ _ _ E2) as [T2 O2];
    intros [= <- <-].
  - exists 1%nat. split; [|rewrite length_app; simpl; lia].
    exists [(CExists dirpath, true); (CRmdir dirpath, false);
            (CRmtree dirpath, true)].
    split; [rewrite T2, T1; simpl; now rewrite <- !app_assoc|].
    split; [reflexivity|]. split; [reflexivity|].
    rewrite O2, O1. reflexivity.
  - exists 0%nat. split; [|reflexivity].
    exists [(CExists dirpath, true); (CRmdir dirpath, false);
            (CRmtree dirpath, false)].
    split; [rewrite T2, T1; simpl; now rewrite <- !app_assoc|].
    split; [reflexivity|]. split; [reflexivity|].
    rewrite O2, O1. reflexivity.
Qed.

Lemma remove_dirs_tally (all_dirs failed_deletes : list path) (w : world) :
  exists k failed w',
    remove_dirs all_dirs failed_deletes w = (Ok failed, w')
    /\ List.length failed = (List.length failed_deletes + k)%nat
    /\ tally w w' 0 k.
Proof.
  revert failed_deletes w.
  induction all_dirs as [|d rest IH]; intros failed_deletes w; simpl.
  - exists 0%nat, failed_deletes, w.
    split; [reflexivity|]. split; [lia | apply tally_refl].
  - destruct (remove_dir d failed_deletes w) as [r w1] eqn:E1.
    destruct (remove_dir_tally _ _ _ _ _ E1) as (k1 & T1 & L1).
    step (attempt_eq _ _ _ _ E1).
    destruct r as [fd|e].
    + destruct (IH fd w1) as (k & failed & w' & E' & L & T).
      exists (k1 + k)%nat, failed, w'. split; [exact E'|]. split; [lia|].
      exact (tally_trans _ _ _ _ _ _ _ T1 T).
    + destruct (IH failed_deletes w1) as (k & failed & w' & E' & L & T).
      exists (k1 + k)%nat, failed, w'. split; [exact E'|]. split; [lia|].
      exact (tally_trans _ _ _ _ _ _ _ T1 T).
Qed.

Lemma remove_root_tally (folder : path) (failed_deletes : list path)
  (w : world) :
  exists k failed w',
    remove_root folder failed_deletes w = (Ok failed, w')
    /\ List.length failed = (List.length failed_deletes + k)%nat
    /\ tally w w' 0 k.
Proof.
  unfold remove_root. unfold attempt at 1, bind at 1.
  destruct (rmdir folder w) as [[[]|e] w1] eqn:E1;
    destruct (syscall_outcome _ _ _ _ _ E1) as [T1 O1].
  { exists 0%nat, failed_deletes, w1. split; [reflexivity|]. split; [lia|].
    exists [(CRmdir folder, true)].
    split; [exact T1|]. split; [reflexivity|]. split; [reflexivity | exact O1]. }
  rewrite (rmdir_oserror _ _ _ _ E1). unfold attempt, bind.
  destruct (rmtree folder w1) as [[[]|e2] w2] eqn:E2;
    destruct (syscall_outcome _ _ _ _ _ E2) as [T2 O2].
  - exists 1%nat, (failed_deletes ++ [folder]), w2.
    split; [reflexivity|]. split; [rewrite length_app; simpl; lia|].
    exists [(CRmdir folder, false); (CRmtree folder, true)].
    split; [rewrite T2, T1; simpl; now rewrite <- app_assoc|].
    split; [reflexivity|]. split; [reflexivity|].
    rewrite O2, O1. reflexivity.
  - exists 0%nat, failed_deletes, w2.
    split; [reflexivity|]. split; [lia|].
    exists [(CRmdir folder, false); (CRmtree folder, false)].
    split; [rewrite T2, T1; simpl; now rewrite <- app_assoc|].
    split; [reflexivity|]. split; [reflexivity|].
    rewrite O2, O1. reflexivity.
Qed.

(** X3.  The report of the engine counts what happened.  On a target that
    is not empty, and under any interference, the number in the summary line
    is the number of unlinks that went through, and the warning about
    force-deleted directories appears exactly when some [rmtree] went
    through, with the number of those. *)
Theorem report_counts_what_happened (folder : path) (passes : Z)
  (rename_files : bool) (w : world) (es : list (string * node)) :
  get folder (fs w) = Some (Dir es) -> es <> [] ->
  exists w' t,
    secure_delete_folder folder passes rename_files w
    = (Ok (Some (parent folder)), w')
    /\ trace w' = trace w ++ t
    /\ out w'
       = out w
         ++ match count_ok is_rmtree t with
            | O => []
            | S _ => [MsgForceDeleted (count_ok is_rmtree t)]
            end
         ++ [MsgSummary (Z.of_nat (count_ok is_remove t))
               (Z.of_nat (List.length (files_of (walk_node folder (Dir es)))))].
Proof.
  intros Hget Hes.
  rewrite (secure_delete_folder_unfold folder passes rename_files w es Hget).
  destruct es as [|e0 es0]; [contradiction|].
  set (all_files := files_of (walk_node folder (Dir (e0 :: es0)))).
  set (all_dirs := dirs_of (walk_node folder (Dir (e0 :: es0)))).
  set (w0 := log (CWalk folder, true)
               (log (CIsDir folder, true) (log (CExists folder, true) w))).
  assert (T0 : tally w w0 0 0).
  { exists [(CExists folder, true); (CIsDir folder, true);
            (CWalk folder, true)].
    split; [subst w0; simpl; now rewrite <- !app_assoc|].
    repeat split. }
  unfold wipe.
  destruct (sum_sizes all_files 0 w0) as [r1 w1] eqn:E1.
  pose proof (tally_harmless _ _ _ _ (effect_sum_sizes all_files 0) E1) as T1.
  destruct (sum_sizes_runs all_files 0 w0) as (sz & w1' & _ & E1' & _).
  rewrite E1 in E1'. injection E1' as -> <-.
  step E1.
  set (m2 := if rename_files
                && ((0 <? Z.of_nat (List.length all_files))
                    || (0 <? Z.of_nat (List.length all_dirs)))
             then rename_items
                    (List.map (fun f => (f, ItemFile)) all_files
                     ++ List.map (fun d => (d, ItemDir)) all_dirs) [] []
             else ret (all_files, all_dirs)).
  assert (H2 : exists lists w2, m2 w1 = (Ok lists, w2) /\ tally w1 w2 0 0).
  { subst m2.
    destruct (rename_files
              && ((0 <? Z.of_nat (List.length all_files))
                  || (0 <? Z.of_nat (List.length all_dirs)))).
    - destruct (rename_items_runs
                  (List.map (fun f => (f, ItemFile)) all_files
                   ++ List.map (fun d => (d, ItemDir)) all_dirs) [] [] w1)
        as (l & w2 & _ & E2 & _).
      exists l, w2. split; [exact E2|].
      exact (tally_harmless _ _ _ _ (effect_rename_items _ [] []) E2).
    - exists (all_files, all_dirs), w1. split; [reflexivity|].
      apply tally_refl. }
  destruct H2 as (lists & w2 & E2 & T2).
  step E2.
  destruct (delete_files_tally (fst lists) passes 0 w2)
    as (k3 & w3 & E3 & T3).
  step E3.
  destruct (remove_dirs_tally (snd lists) [] w3)
    as (k4 & fd & w4 & E4 & L4 & T4).
  step E4.
  destruct (remove_root_tally folder fd w4) as (k5 & fd' & w5 & E5 & L5 & T5).
  step E5.
  pose proof (tally_trans _ _ _ _ _ _ _ T0
                (tally_trans _ _ _ _ _ _ _ T1
                   (tally_trans _ _ _ _ _ _ _ T2
                      (tally_trans _ _ _ _ _ _ _ T3
                         (tally_trans _ _ _ _ _ _ _ T4 T5)))))
    as (t & T & R & F & O).
  simpl in R, F, L4.
  assert (Hlen : List.length fd' = count_ok is_rmtree t) by lia.
  assert (Hrem : count_ok is_remove t = k3) by lia.
  exists (emit (MsgSummary (0 + Z.of_nat k3)
                  (Z.of_nat (List.length all_files)))
            (match fd' with
             | [] => w5
             | _ :: _ => emit (MsgForceDeleted (List.length fd')) w5
             end)), t.
  split; [destruct fd'; reflexivity|].
  split; [destruct fd'; exact T|].
  rewrite <- Hlen, Hrem. cbn [Z.add].
  destruct fd'; simpl; rewrite O; now rewrite <- ?app_assoc.
Qed.

Lemma report_counts_what_happened_witness :
  exists w' t,
    secure_delete_folder target 1 false
      (demo_world linux_host
         (site_tree [("a", File 2); ("sub", Dir [("b", File 0)])])
         [None; None; None; None; None; None; Some Locked])
    = (Ok (Some ["site"]), w')
    /\ trace w'
       = trace (demo_world linux_host
                  (site_tree [("a", File 2); ("sub", Dir [("b", File 0)])])
                  [None; None; None; None; None; None; Some Locked]) ++ t
    /\ out w'
       = out (demo_world linux_host
                (site_tree [("a", File 2); ("sub", Dir [("b", File 0)])])
                [None; None; None; None; None; None; Some Locked])
         ++ match count_ok is_rmtree t with
            | O => []
            | S _ => [MsgForceDeleted (count_ok is_rmtree t)]
            end
         ++ [MsgSummary (Z.of_nat (count_ok is_remove t)) 2].
Proof.
  apply (report_counts_what_happened target 1 false
           (demo_world linux_host
              (site_tree [("a", File 2); ("sub", Dir [("b", File 0)])])
              [None; None; None; None; None; None; Some Locked])
           [("a", File 2); ("sub", Dir [("b", File 0)])]);
    [reflexivity | discriminate].
Defined.
